(** * Updater.Data: overflow-checked conversion, binary reader, folder tree

    A shallow embedding of the three headers of [Updater.Data/include]
    ([Convert.h], [SBinaryReader.h], [SFolder.h]) and the properties
    of the specification proved about it.

    Conventions.
    - A C++ integer of width [w] is a [Z]; every narrowing conversion is
      written out with its wrap-around.
    - A function that can [throw] returns a [result]: [Return v] or
      [Throw e], with [e] named after the throw expression of the source.
    - Objects managed by [std::shared_ptr] live in a store indexed by
      addresses; a [shared_ptr] is an optional address and every control
      block carries its use count. *)

From Stdlib Require Import ZArith Lia Ascii String Strings.Byte Sorted.
From stdpp Require Import base gmap list strings.

Local Open Scope Z_scope.

(** ** Results of throwing code *)

(** The values thrown, one per throw site.
    - [overflow_error_exception]: [throw std::overflow_error::exception()]
      in [Convert.h];
    - [invalid_argument_exception]:
      [throw std::invalid_argument::exception()] in [SBinaryReader.h];
    - [read_error]: the short-read condition of the reader's read
      operations, whose bodies are not part of the headers. *)
Inductive exception : Type :=
  | overflow_error_exception
  | invalid_argument_exception
  | read_error.

Inductive result (A : Type) : Type :=
  | Return (a : A)
  | Throw (e : exception).
Arguments Return {A} a.
Arguments Throw {A} e.

Definition bind {A B : Type} (r : result A) (k : A -> result B) : result B :=
  match r with
  | Return a => k a
  | Throw e => Throw e
  end.

(** ** Fixed-width integers *)

Definition INT32_MAX : Z := 2147483647.
Definition UINT32_MAX : Z := 4294967295.

(** [SIZE_MAX] on a platform whose [size_t] has [bits] bits. *)
Definition SIZE_MAX (bits : Z) : Z := 2 ^ bits - 1.

(** [v] is a value of the platform's [size_t]. *)
Definition is_size_t (bits v : Z) : Prop := 0 <= v <= SIZE_MAX bits.

(** [static_cast] to an unsigned type of [w] bits: reduction modulo [2^w]. *)
Definition wrap_unsigned (w x : Z) : Z := x mod 2 ^ w.

(** [static_cast] to a signed type of [w] bits: two's complement. *)
Definition wrap_signed (w x : Z) : Z :=
  (x + 2 ^ (w - 1)) mod 2 ^ w - 2 ^ (w - 1).

Definition in_unsigned (w x : Z) : Prop := 0 <= x < 2 ^ w.
Definition in_signed (w x : Z) : Prop := - 2 ^ (w - 1) <= x < 2 ^ (w - 1).

(** ** Convert.h *)

Module Convert.

(** [static int32_t toInt32(size_t value)] *)
Definition toInt32 (value : Z) : result Z :=
  if value >? INT32_MAX then Throw overflow_error_exception
  else Return (wrap_signed 32 value).

(** [static uint32_t toUInt32(size_t value)] *)
Definition toUInt32 (value : Z) : result Z :=
  if value >? UINT32_MAX then Throw overflow_error_exception
  else Return (wrap_unsigned 32 value).

End Convert.

(** ** SBinaryReader.h *)

(** The state of a [std::ifstream]: the bytes not yet extracted and the
    error flags of [std::ios_base::iostate]. *)
Record ifstream : Type := mk_ifstream {
  pending : list byte;
  eofbit : bool;
  failbit : bool;
  badbit : bool
}.

(** [std::basic_ios::fail], the value of [!stream]. *)
Definition fail (s : ifstream) : bool := failbit s || badbit s.

(** The only data member, [std::ifstream* stream_]: [None] is [nullptr],
    [Some a] the address of a stream. *)
Record SBinaryReader : Type := mk_SBinaryReader {
  stream_ : option positive
}.

(** [SBinaryReader(std::ifstream& stream) : stream_(nullptr)].  The
    reference is given by the address [addr] of the stream and the
    state [stream] of the object at that address.  A constructor that
    throws leaves no object behind: [Throw] carries no reader. *)
Definition SBinaryReader_ctor (addr : positive) (stream : ifstream)
  : result SBinaryReader :=
  let this := {| stream_ := None |} in
  if fail stream then Throw invalid_argument_exception
  else Return {| stream_ := Some addr |}.

(** The reader is [Open] on the stream at [a] when [stream_] points to it. *)
Definition Open (r : SBinaryReader) (a : positive) : Prop := stream_ r = Some a.

(** *** The read operations

    Modelled from the spec: the bodies of [readChars], [readString],
    [readInt8] ... [readUInt64], [readSingle] and [readDouble] are
    missing (the header only declares them).  Following sections 4.2 and
    6 of the specification, an operation of an Open reader consumes its
    bytes from the front of the wrapped stream, decodes them in
    little-endian order, and fails with the read-error condition when
    fewer bytes remain than it requires.  The specification leaves the
    stream after a failed read unspecified, so a failure carries no
    stream state. *)
Definition reading (A : Type) : Type := ifstream -> result (A * ifstream).

Definition read_ret {A : Type} (a : A) : reading A := fun s => Return (a, s).

Definition read_bind {A B : Type} (m : reading A) (k : A -> reading B)
  : reading B :=
  fun s => match m s with
           | Return (a, s') => k a s'
           | Throw e => Throw e
           end.

Notation "x <- m ;; k" := (read_bind m (fun x => k))
  (at level 100, m at next level, right associativity).

(** The stream once [n] bytes have been extracted. *)
Definition advance (n : nat) (s : ifstream) : ifstream :=
  {| pending := drop n (pending s);
     eofbit := eofbit s; failbit := failbit s; badbit := badbit s |}.

(** Bytes still to be read. *)
Definition remaining (s : ifstream) : Z := Z.of_nat (length (pending s)).

(** Extraction of exactly [count] raw bytes, or a short read. *)
Definition read_bytes (count : Z) : reading (list byte) :=
  fun s =>
    if remaining s <? count then Throw read_error
    else Return (take (Z.to_nat count) (pending s), advance (Z.to_nat count) s).

Definition byte_to_Z (b : byte) : Z := Z.of_N (Byte.to_N b).

Definition byte_of_Z (z : Z) : byte :=
  match Byte.of_N (Z.to_N (z mod 256)) with
  | Some b => b
  | None => x00
  end.

(** The unsigned value of a little-endian byte sequence. *)
Fixpoint le_decode (bs : list byte) : Z :=
  match bs with
  | [] => 0
  | b :: bs' => byte_to_Z b + 256 * le_decode bs'
  end.

(** An unsigned little-endian integer of [n] bytes. *)
Definition read_unsigned (n : Z) : reading Z :=
  bs <- read_bytes n ;; read_ret (le_decode bs).

(** A two's-complement little-endian integer of [n] bytes. *)
Definition read_signed (n : Z) : reading Z :=
  bs <- read_bytes n ;; read_ret (wrap_signed (8 * n) (le_decode bs)).

Definition readInt8 : reading Z := read_signed 1.
Definition readInt16 : reading Z := read_signed 2.
Definition readInt32 : reading Z := read_signed 4.
Definition readInt64 : reading Z := read_signed 8.
Definition readUInt8 : reading Z := read_unsigned 1.
Definition readUInt16 : reading Z := read_unsigned 2.
Definition readUInt32 : reading Z := read_unsigned 4.
Definition readUInt64 : reading Z := read_unsigned 8.

(** An IEEE-754 value is kept as its bit pattern: reading one neither
    rounds nor normalises. *)
Record ieee754 : Type := mk_ieee754 { float_width : Z; float_bits : Z }.

Definition readSingle : reading ieee754 :=
  bs <- read_bytes 4 ;; read_ret {| float_width := 32; float_bits := le_decode bs |}.

Definition readDouble : reading ieee754 :=
  bs <- read_bytes 8 ;; read_ret {| float_width := 64; float_bits := le_decode bs |}.

(** [std::string readChars(size_t count)]: the raw bytes, each mapped to
    the character of the same code. *)
Definition readChars (count : Z) : reading string :=
  bs <- read_bytes count ;; read_ret (string_of_list_byte bs).

(** [std::string readString()]: a 4-byte unsigned length, then that many
    characters. *)
Definition readString : reading string :=
  n <- readUInt32 ;; readChars n.

(** The read operations as data, to quantify over them. *)
Inductive read_op : Type :=
  | op_readInt8 | op_readInt16 | op_readInt32 | op_readInt64
  | op_readUInt8 | op_readUInt16 | op_readUInt32 | op_readUInt64
  | op_readSingle | op_readDouble
  | op_readChars (count : Z)
  | op_readString.

Inductive value : Type :=
  | v_int (z : Z)
  | v_float (f : ieee754)
  | v_text (t : string).

Definition lift {A : Type} (inj : A -> value) (m : reading A) : reading value :=
  a <- m ;; read_ret (inj a).

Definition run (op : read_op) : reading value :=
  match op with
  | op_readInt8 => lift v_int readInt8
  | op_readInt16 => lift v_int readInt16
  | op_readInt32 => lift v_int readInt32
  | op_readInt64 => lift v_int readInt64
  | op_readUInt8 => lift v_int readUInt8
  | op_readUInt16 => lift v_int readUInt16
  | op_readUInt32 => lift v_int readUInt32
  | op_readUInt64 => lift v_int readUInt64
  | op_readSingle => lift v_float readSingle
  | op_readDouble => lift v_float readDouble
  | op_readChars count => lift v_text (readChars count)
  | op_readString => lift v_text readString
  end.

(** The number of bytes [op] requires of the stream [s] (table of
    section 4.2).  [readString] requires its 4-byte prefix and, once the
    prefix can be read, the [N] bytes the prefix announces. *)
Definition required (op : read_op) (s : ifstream) : Z :=
  match op with
  | op_readInt8 | op_readUInt8 => 1
  | op_readInt16 | op_readUInt16 => 2
  | op_readInt32 | op_readUInt32 | op_readSingle => 4
  | op_readInt64 | op_readUInt64 | op_readDouble => 8
  | op_readChars count => count
  | op_readString =>
      if remaining s <? 4 then 4 else 4 + le_decode (take 4 (pending s))
  end.

(** *** Writers, for the round-trip laws

    The encodings the specification names for the producer of the
    package: a little-endian integer of [n] bytes, and a string as its
    4-byte little-endian length followed by its raw bytes. *)
Fixpoint le_encode (n : nat) (v : Z) : list byte :=
  match n with
  | O => []
  | S n' => byte_of_Z v :: le_encode n' (v / 256)
  end.

Definition encode_string (t : string) : list byte :=
  le_encode 4 (Z.of_nat (String.length t)) ++ list_byte_of_string t.

(** The fixed-width integer types of the reader. *)
Inductive int_type : Type := int8 | int16 | int32 | int64
                           | uint8 | uint16 | uint32 | uint64.

Definition size_of (t : int_type) : nat :=
  match t with
  | int8 | uint8 => 1
  | int16 | uint16 => 2
  | int32 | uint32 => 4
  | int64 | uint64 => 8
  end%nat.

Definition is_signed (t : int_type) : bool :=
  match t with
  | int8 | int16 | int32 | int64 => true
  | _ => false
  end.

(** The values of type [t]. *)
Definition in_type (t : int_type) (v : Z) : Prop :=
  if is_signed t then in_signed (8 * Z.of_nat (size_of t)) v
  else in_unsigned (8 * Z.of_nat (size_of t)) v.

(** The read operation of type [t]. *)
Definition read_int (t : int_type) : reading Z :=
  match t with
  | int8 => readInt8 | int16 => readInt16
  | int32 => readInt32 | int64 => readInt64
  | uint8 => readUInt8 | uint16 => readUInt16
  | uint32 => readUInt32 | uint64 => readUInt64
  end.

(** A text of [n] characters, for the boundary lengths of the
    specification. *)
Definition text_of_length (n : nat) : string :=
  string_of_list_byte (repeat x61 n).

(** ** PathHelper.h *)

Module PathHelper.

(** Does the path end with the separator? *)
Fixpoint ends_with (sep : ascii) (p : string) : bool :=
  match p with
  | EmptyString => false
  | String c p' =>
      match p' with
      | EmptyString => Ascii.eqb c sep
      | String _ _ => ends_with sep p'
      end
  end.

(** Does the name begin with the separator? *)
Definition starts_with (sep : ascii) (p : string) : bool :=
  match p with
  | EmptyString => false
  | String c _ => Ascii.eqb c sep
  end.

(** The name without its first character. *)
Definition behead (p : string) : string :=
  match p with
  | EmptyString => EmptyString
  | String _ p' => p'
  end.

(** Modelled from the spec: [PathHelper::combine], of the missing
    header [PathHelper.h].  Section 4.3: it "appends childName as a
    new path segment under parentPath using the platform path-segment
    separator", without altering the case of [childName] and without
    introducing a duplicate separator: exactly one separator stands
    where the two meet, the one of [parentPath], the one of [childName]
    or, when neither has one, a new one.  [sep] is the platform's
    separator. *)
Definition combine (sep : ascii) (parentPath childName : string) : string :=
  match ends_with sep parentPath, starts_with sep childName with
  | true, true => String.append parentPath (behead childName)
  | false, false => String.append parentPath (String sep childName)
  | _, _ => String.append parentPath childName
  end.

(** Lower case of an ASCII letter; any other character is itself. *)
Definition to_lower (c : ascii) : ascii :=
  let n := N_of_ascii c in
  if ((65 <=? n) && (n <=? 90))%N then ascii_of_N (n + 32) else c.

(** A name with letter case removed. *)
Fixpoint casefold (p : string) : string :=
  match p with
  | EmptyString => EmptyString
  | String c p' => String (to_lower c) (casefold p')
  end.

(** Modelled from the spec: the comparator [PathICompareLT], of the
    missing header [PathHelper.h].  Section 4.3: "comparison between
    two names for map-keying purposes is case-insensitive
    lexicographic". *)
Definition PathICompareLT (a b : string) : bool :=
  String.ltb (casefold a) (casefold b).

End PathHelper.




(** ** std::map with a comparator

    A [std::map<K, V, Compare>] is the sequence of its entries in
    iteration order.  Two keys are equivalent when neither is less than
    the other. *)
Module StdMap.
Section Ops.
Context {K V : Type} (lt : K -> K -> bool).

Definition equivalent (a b : K) : bool := negb (lt a b) && negb (lt b a).

(** [find]: the value of the entry whose key is equivalent to [k]. *)
Fixpoint find (k : K) (m : list (K * V)) : option V :=
  match m with
  | [] => None
  | (k', v') :: m' =>
      if lt k k' then None
      else if lt k' k then find k m'
      else Some v'
  end.

(** [insert] / [emplace]: a new entry, unless an equivalent key is
    present, in which case the map is left as it is. *)
Fixpoint insert (k : K) (v : V) (m : list (K * V)) : list (K * V) :=
  match m with
  | [] => [(k, v)]
  | (k', v') :: m' =>
      if lt k k' then (k, v) :: m
      else if lt k' k then (k', v') :: insert k v m'
      else m
  end.

(** [insert_or_assign], [m[k] = v]: a new entry, or the value of the
    entry with an equivalent key replaced (its key is kept). *)
Fixpoint insert_or_assign (k : K) (v : V) (m : list (K * V))
  : list (K * V) :=
  match m with
  | [] => [(k, v)]
  | (k', v') :: m' =>
      if lt k k' then (k, v) :: m
      else if lt k' k then (k', v') :: insert_or_assign k v m'
      else (k', v) :: m'
  end.


(** The keys in iteration order. *)
Definition keys (m : list (K * V)) : list K := map fst m.

(** The invariant of the container: keys strictly increasing. *)
Definition ordered (m : list (K * V)) : Prop :=
  StronglySorted (fun a b => lt a b = true) (keys m).
End Ops.
End StdMap.

(** ** SFolder.h *)

(** A [std::shared_ptr]: [None] is the null pointer, [Some a] owns a
    share of the object at address [a]. *)
Definition shared_ptr : Type := option positive.

Record SFolder : Type := mk_SFolder {
  path : string;
  name : string;
  parentFolder : shared_ptr;
  files : list (string * shared_ptr);
  subfolders : list (string * shared_ptr)
}.

(** Modelled from the spec: [class SFile] is only forward-declared in
    [SFolder.h].  Section 3: a leaf entry with a name, a path and a
    parent reference, under the rules of a folder. *)
Record SFile : Type := mk_SFile {
  file_path : string;
  file_name : string;
  file_parentFolder : shared_ptr
}.

Inductive object : Type :=
  | obj_folder (f : SFolder)
  | obj_file (f : SFile).

(** What [std::make_shared] allocates: the object and its count of
    owning [shared_ptr]s. *)
Record control_block : Type := mk_control_block {
  use_count : nat;
  managed : object
}.

Abbreviation heap := (gmap positive control_block).

(** The path of the node at an address. *)
Definition object_path (o : object) : string :=
  match o with
  | obj_folder f => path f
  | obj_file f => file_path f
  end.

Definition node_path (h : heap) (a : positive) : option string :=
  object_path <$> (managed <$> h !! a).

(** The folder a non-null [shared_ptr<SFolder>] points to. *)
Definition folder_at (h : heap) (a : positive) : option SFolder :=
  match h !! a with
  | Some {| managed := obj_folder f |} => Some f
  | _ => None
  end.

(** A [shared_ptr<SFolder>] as a program holds it: null, or pointing to
    a live folder. *)
Definition live_folder (h : heap) (p : shared_ptr) : bool :=
  match p with
  | None => true
  | Some a => bool_decide (is_Some (folder_at h a))
  end.

(** The [shared_ptr] members of an object, in the order its destructor
    releases them (members are destroyed in reverse order of
    declaration). *)
Definition members (o : object) : list positive :=
  match o with
  | obj_folder f =>
      omap snd (subfolders f) ++ omap snd (files f)
        ++ option_list (parentFolder f)
  | obj_file f => option_list (file_parentFolder f)
  end.

Definition incr (c : control_block) : control_block :=
  {| use_count := S (use_count c); managed := managed c |}.

Definition decr (c : control_block) : control_block :=
  {| use_count := pred (use_count c); managed := managed c |}.

(** Copying a [shared_ptr]: one more owner. *)
Definition acquire (p : shared_ptr) (h : heap) : heap :=
  match p with
  | None => h
  | Some a => alter incr a h
  end.

(** Destroying the [shared_ptr]s [todo], one after the other: an owner
    less, and when it was the last one the object is destroyed, its own
    members first.  An address without an object, which no well-formed
    program holds, is passed over.  [None] only when [fuel] runs out. *)
Fixpoint release_all (fuel : nat) (todo : list positive) (h : heap)
  : option heap :=
  match todo with
  | [] => Some h
  | a :: rest =>
      match fuel with
      | O => None
      | S fuel' =>
          match h !! a with
          | None => release_all fuel' rest h
          | Some c =>
              if (use_count c <=? 1)%nat
              then release_all fuel' (members (managed c) ++ rest) (delete a h)
              else release_all fuel' rest (<[a := decr c]> h)
          end
      end
  end.

(** An upper bound on the [shared_ptr]s a heap can still release. *)
Definition weight (h : heap) : nat :=
  map_fold (fun _ c n => S (length (members (managed c)) + n)) O h.

(** [~shared_ptr()] / [reset()]. *)
Definition release (p : shared_ptr) (h : heap) : option heap :=
  release_all (length (option_list p) + weight h) (option_list p) h.

Section Tree.

(** [PathHelper::combine] and [PathICompareLT], which [SFolder.h]
    takes from the missing [PathHelper.h]. *)
Variable combine : string -> string -> string.
Variable PathICompareLT : string -> string -> bool.

(** [SFolder(const path& name, const shared_ptr<SFolder>& parentFolder
    = nullptr) : name(name), parentFolder(parentFolder)].  [None] when
    [parentFolder] points to no folder, which [parentFolder->path]
    leaves undefined. *)
Definition SFolder_ctor (h : heap) (name0 : string) (parentFolder0 : shared_ptr)
  : option SFolder :=
  match parentFolder0 with
  | None =>
      Some {| path := name0; name := name0; parentFolder := parentFolder0;
              files := []; subfolders := [] |}
  | Some a =>
      match folder_at h a with
      | Some pf =>
          Some {| path := combine (path pf) name0; name := name0;
                  parentFolder := parentFolder0;
                  files := []; subfolders := [] |}
      | None => None
      end
  end.

(** [std::make_shared<SFolder>(name, parentFolder)]: the constructor,
    whose member [parentFolder] is a copy of the argument and so one
    more owner of the parent, and a new control block with one owner,
    the handle returned. *)
Definition make_shared_SFolder (h : heap) (name0 : string)
    (parentFolder0 : shared_ptr) : option (positive * heap) :=
  match SFolder_ctor h name0 parentFolder0 with
  | None => None
  | Some f =>
      let a := fresh (dom h) in
      Some (a, <[a := {| use_count := 1; managed := obj_folder f |}]>
                 (acquire parentFolder0 h))
  end.

(** Modelled from the spec: the constructor of [SFile], which is
    missing.  Section 3: its path is computed as a folder's is. *)
Definition SFile_ctor (h : heap) (name0 : string) (parentFolder0 : shared_ptr)
  : option SFile :=
  match parentFolder0 with
  | None =>
      Some {| file_path := name0; file_name := name0;
              file_parentFolder := parentFolder0 |}
  | Some a =>
      match folder_at h a with
      | Some pf =>
          Some {| file_path := combine (path pf) name0; file_name := name0;
                  file_parentFolder := parentFolder0 |}
      | None => None
      end
  end.

Definition make_shared_SFile (h : heap) (name0 : string)
    (parentFolder0 : shared_ptr) : option (positive * heap) :=
  match SFile_ctor h name0 parentFolder0 with
  | None => None
  | Some f =>
      let a := fresh (dom h) in
      Some (a, <[a := {| use_count := 1; managed := obj_file f |}]>
                 (acquire parentFolder0 h))
  end.

Definition set_subfolders (m : list (string * shared_ptr)) (f : SFolder)
  : SFolder :=
  {| path := path f; name := name f; parentFolder := parentFolder f;
     files := files f; subfolders := m |}.


(** [folder->subfolders.emplace(key, child)], as the driver that
    builds the tree calls it: when no equivalent key is present the
    entry is added and holds a copy of [child]. *)
Definition emplace_subfolder (h : heap) (folder : positive) (key : string)
    (child : shared_ptr) : option heap :=
  match h !! folder with
  | Some {| use_count := n; managed := obj_folder f |} =>
      match StdMap.find PathICompareLT key (subfolders f) with
      | Some _ => Some h
      | None =>
          let f' := set_subfolders
                      (StdMap.insert PathICompareLT key child (subfolders f)) f in
          Some (acquire child
                  (<[folder := {| use_count := n; managed := obj_folder f' |}]> h))
      end
  | _ => None
  end.









(** A root, a folder constructed under it and entered in the root's
    [subfolders], and then every handle the program held dropped: the
    child's first, the root's last. *)
Definition build_and_drop (h : heap) (root_name child_name : string)
  : option (positive * positive * heap) :=
  '(r, h1) ← make_shared_SFolder h root_name None;
  '(c, h2) ← make_shared_SFolder h1 child_name (Some r);
  h3 ← emplace_subfolder h2 r child_name (Some c);
  h4 ← release (Some c) h3;
  h5 ← release (Some r) h4;
  Some (r, c, h5).

(** A root and a folder constructed under it but entered in no
    mapping; the root's handle is dropped first, the child's last.
    The heap is given after each drop. *)
Definition chain_and_drop (h : heap) (root_name child_name : string)
  : option (positive * positive * heap * heap) :=
  '(r, h1) ← make_shared_SFolder h root_name None;
  '(c, h2) ← make_shared_SFolder h1 child_name (Some r);
  h3 ← release (Some r) h2;
  h4 ← release (Some c) h3;
  Some (r, c, h3, h4).

End Tree.

(** ** Compositions of the operations *)

(** What [std::map] requires of its comparator: a strict weak ordering. *)
Definition strict_weak_order {K : Type} (lt : K -> K -> bool) : Prop :=
  (forall a, lt a a = false) /\
  (forall a b c, lt a b = true -> lt b c = true -> lt a c = true) /\
  (forall a b, StdMap.equivalent lt a b = true ->
               forall c, lt a c = lt b c /\ lt c a = lt c b).

Section Chain.

Variable combine : string -> string -> string.

(** Folders nested one in the other: the first of [names] is
    constructed under [parentFolder0], every other one under the folder
    before it.  The handles are returned from the outermost folder to
    the innermost. *)
Fixpoint make_chain (h : heap) (parentFolder0 : shared_ptr) (names : list string)
  : option (list positive * heap) :=
  match names with
  | [] => Some ([], h)
  | n :: names' =>
      '(a, h1) ← make_shared_SFolder combine h n parentFolder0;
      '(l, h2) ← make_chain h1 (Some a) names';
      Some (a :: l, h2)
  end.

(** The paths such a chain is to have: [above] is the path of the
    folder the chain hangs under, if any. *)
Fixpoint chain_paths (above : option string) (names : list string) : list string :=
  match names with
  | [] => []
  | n :: names' =>
      let p := match above with
               | None => n
               | Some q => combine q n
               end in
      p :: chain_paths (Some p) names'
  end.

End Chain.

(** The handles [ps] dropped one after the other. *)
Fixpoint drop_all (ps : list positive) (h : heap) : option heap :=
  match ps with
  | [] => Some h
  | p :: ps' => h' ← release (Some p) h; drop_all ps' h'
  end.

(** The nodes of [group] are referenced by no node outside [group]. *)
Definition isolated (h : heap) (group : list positive) : bool :=
  bool_decide
    (map_Forall
       (fun x c => x ∈ group \/
                   Forall (fun a => a ∉ group) (members (managed c))) h).

(** * Properties *)

Lemma wrap_signed_small (w x : Z) :
  0 < w -> in_signed w x -> wrap_signed w x = x.
Proof.
  unfold in_signed, wrap_signed. intros Hw Hx.
  assert (E : 2 ^ w = 2 * 2 ^ (w - 1)).
  { replace w with (Z.succ (w - 1)) at 1 by lia. apply Z.pow_succ_r. lia. }
  rewrite Z.mod_small; lia.
Qed.

Lemma wrap_unsigned_small (w x : Z) :
  in_unsigned w x -> wrap_unsigned w x = x.
Proof. unfold in_unsigned, wrap_unsigned. intros Hx. apply Z.mod_small. lia. Qed.

(** C1. For every value [v] of the platform's [size_t], whatever its
    width: [toInt32 v] returns [v] itself when [v <= INT32_MAX] and
    throws at the overflow guard when [v > INT32_MAX]; [toUInt32 v]
    returns [v] itself when [v <= UINT32_MAX] and throws at the overflow
    guard when [v > UINT32_MAX].  No input is truncated or wrapped. *)
Theorem convert_checked (bits v : Z) (Hv : is_size_t bits v) :
  (v <= INT32_MAX -> Convert.toInt32 v = Return v) /\
  (v > INT32_MAX -> Convert.toInt32 v = Throw overflow_error_exception) /\
  (v <= UINT32_MAX -> Convert.toUInt32 v = Return v) /\
  (v > UINT32_MAX -> Convert.toUInt32 v = Throw overflow_error_exception).
Proof.
  destruct Hv as [H0 _]. unfold Convert.toInt32, Convert.toUInt32.
  repeat split; intros H.
  - destruct (Z.gtb_spec v INT32_MAX) as [G | G]; [lia |].
    f_equal. apply wrap_signed_small; [lia |].
    unfold in_signed, INT32_MAX in *. simpl. lia.
  - destruct (Z.gtb_spec v INT32_MAX) as [G | G]; [reflexivity | lia].
  - destruct (Z.gtb_spec v UINT32_MAX) as [G | G]; [lia |].
    f_equal. apply wrap_unsigned_small.
    unfold in_unsigned, UINT32_MAX in *. simpl. lia.
  - destruct (Z.gtb_spec v UINT32_MAX) as [G | G]; [reflexivity | lia].
Qed.

Lemma convert_checked_witness :
  is_size_t 64 4294967296 /\
  Convert.toInt32 4294967296 = Throw overflow_error_exception /\
  Convert.toUInt32 4294967296 = Throw overflow_error_exception.
Proof.
  assert (H : is_size_t 64 4294967296) by (unfold is_size_t, SIZE_MAX; simpl; lia).
  split; [exact H |].
  destruct (convert_checked 64 4294967296 H) as (_ & A & _ & B).
  split; [apply A | apply B]; unfold INT32_MAX, UINT32_MAX; lia.
Defined.

(** ** The reader *)

Lemma byte_to_Z_range (b : byte) : 0 <= byte_to_Z b < 256.
Proof.
  unfold byte_to_Z. pose proof (Byte.to_N_bounded b) as H. lia.
Qed.

Lemma byte_to_of_Z (z : Z) : byte_to_Z (byte_of_Z z) = z mod 256.
Proof.
  unfold byte_to_Z, byte_of_Z.
  assert (R : 0 <= z mod 256 < 256) by (apply Z.mod_pos_bound; lia).
  pose proof (Byte.to_of_N_option_map (Z.to_N (z mod 256))) as H.
  destruct (N.leb_spec (Z.to_N (z mod 256)) 255) as [L | L]; [| lia].
  destruct (Byte.of_N (Z.to_N (z mod 256))) as [b |]; [| discriminate].
  simpl in H. injection H as ->. lia.
Qed.

Lemma le_encode_length (n : nat) (v : Z) : length (le_encode n v) = n.
Proof. revert v. induction n as [| n IH]; intros v; simpl; [| rewrite IH]; reflexivity. Qed.

Lemma le_decode_encode (n : nat) (v : Z) :
  le_decode (le_encode n v) = v mod 256 ^ Z.of_nat n.
Proof.
  revert v. induction n as [| n IH]; intros v.
  - simpl. symmetry. apply Z.mod_1_r.
  - cbn [le_encode le_decode]. rewrite byte_to_of_Z, IH.
    rewrite Nat2Z.inj_succ, Z.pow_succ_r by lia.
    symmetry. apply Z.rem_mul_r; lia.
Qed.

Lemma le_decode_range (bs : list byte) :
  0 <= le_decode bs < 256 ^ Z.of_nat (length bs).
Proof.
  induction bs as [| b bs IH].
  - simpl. lia.
  - cbn [le_decode length]. rewrite Nat2Z.inj_succ, Z.pow_succ_r by lia.
    pose proof (byte_to_Z_range b). lia.
Qed.

Lemma read_bytes_short (count : Z) (s : ifstream) :
  remaining s < count -> read_bytes count s = Throw read_error.
Proof.
  intros H. unfold read_bytes.
  destruct (Z.ltb_spec (remaining s) count); [reflexivity | lia].
Qed.

Lemma read_bytes_enough (count : Z) (s : ifstream) :
  count <= remaining s ->
  read_bytes count s =
  Return (take (Z.to_nat count) (pending s), advance (Z.to_nat count) s).
Proof.
  intros H. unfold read_bytes.
  destruct (Z.ltb_spec (remaining s) count); [lia | reflexivity].
Qed.

Lemma read_bytes_app (bs rest : list byte) (e f b : bool) :
  read_bytes (Z.of_nat (length bs)) (mk_ifstream (bs ++ rest) e f b) =
  Return (bs, mk_ifstream rest e f b).
Proof.
  rewrite read_bytes_enough.
  - unfold advance. simpl. rewrite Nat2Z.id.
    rewrite take_app_length, drop_app_length. reflexivity.
  - unfold remaining. simpl. rewrite length_app. lia.
Qed.

Lemma bind_short {A B : Type} (count : Z) (k : list byte -> reading B)
    (inj : B -> A) (s : ifstream) :
  remaining s < count ->
  read_bind (read_bind (read_bytes count) k) (fun x => read_ret (inj x)) s
  = Throw read_error.
Proof.
  intros H. unfold read_bind. rewrite read_bytes_short by exact H. reflexivity.
Qed.

(** C5. Every read operation run on a stream that holds fewer bytes
    than the operation requires fails with the read-error condition,
    which is not the overflow condition; a failure is no value at all,
    so nothing zero-filled or partial is returned. *)
Theorem short_read_fails (op : read_op) (s : ifstream)
    (Hshort : remaining s < required op s) :
  run op s = Throw read_error /\
  read_error <> overflow_error_exception /\
  (forall v s', run op s <> Return (v, s')).
Proof.
  assert (E : run op s = Throw read_error).
  { destruct op; cbn [run required] in *;
      try (apply bind_short; exact Hshort).
    unfold lift, readString, readUInt32, read_unsigned, readChars.
    destruct (Z.ltb_spec (remaining s) 4) as [L | L].
    - unfold read_bind. rewrite read_bytes_short by exact L. reflexivity.
    - unfold read_bind at 1 2 3. rewrite read_bytes_enough by exact L.
      cbn [read_ret]. change (Z.to_nat 4) with 4%nat.
      unfold read_bind. rewrite read_bytes_short; [reflexivity |].
      unfold remaining, advance in *. cbn [pending].
      rewrite length_drop. lia. }
  split; [exact E |]. split; [discriminate |].
  intros v s'. rewrite E. discriminate.
Qed.

Lemma short_read_fails_witness :
  run op_readInt32 (mk_ifstream [x01; x02; x03] false false false)
  = Throw read_error.
Proof.
  apply (short_read_fails op_readInt32
           (mk_ifstream [x01; x02; x03] false false false)).
  vm_compute. reflexivity.
Defined.

Lemma read_unsigned_encode (n : nat) (v : Z) (rest : list byte) (e f b : bool) :
  read_unsigned (Z.of_nat n) (mk_ifstream (le_encode n v ++ rest) e f b) =
  Return (v mod 256 ^ Z.of_nat n, mk_ifstream rest e f b).
Proof.
  unfold read_unsigned, read_bind.
  rewrite <- (le_encode_length n v) at 1.
  rewrite read_bytes_app. unfold read_ret. rewrite le_decode_encode. reflexivity.
Qed.

Lemma read_signed_encode (n : nat) (v : Z) (rest : list byte) (e f b : bool) :
  read_signed (Z.of_nat n) (mk_ifstream (le_encode n v ++ rest) e f b) =
  Return (wrap_signed (8 * Z.of_nat n) (v mod 256 ^ Z.of_nat n),
          mk_ifstream rest e f b).
Proof.
  unfold read_signed, read_bind.
  rewrite <- (le_encode_length n v) at 1.
  rewrite read_bytes_app. unfold read_ret. rewrite le_decode_encode. reflexivity.
Qed.

Lemma pow_256 (n : Z) : 0 <= n -> 256 ^ n = 2 ^ (8 * n).
Proof. intros H. rewrite Z.pow_mul_r by lia. reflexivity. Qed.

Lemma wrap_signed_mod (w v : Z) :
  0 < w -> in_signed w v -> wrap_signed w (v mod 2 ^ w) = v.
Proof.
  intros Hw Hv. rewrite <- (wrap_signed_small w v Hw Hv) at 2.
  unfold wrap_signed. f_equal.
  rewrite Zplus_mod_idemp_l. reflexivity.
Qed.

(** C7. For each of the eight fixed-width integer types and every value
    of the type, the value written as a little-endian sequence of the
    type's size, followed by any further bytes, is read back unchanged
    by the type's read operation, which leaves exactly the further
    bytes in the stream. *)
Theorem integer_round_trip (t : int_type) (v : Z) (rest : list byte)
    (e f b : bool) (Hv : in_type t v) :
  read_int t (mk_ifstream (le_encode (size_of t) v ++ rest) e f b) =
  Return (v, mk_ifstream rest e f b).
Proof.
  destruct t; unfold in_type in Hv; cbn [is_signed size_of] in Hv;
    cbn [read_int size_of];
    unfold readInt8, readInt16, readInt32, readInt64,
           readUInt8, readUInt16, readUInt32, readUInt64.
  1: change 1 with (Z.of_nat 1). 2: change 2 with (Z.of_nat 2).
  3: change 4 with (Z.of_nat 4). 4: change 8 with (Z.of_nat 8).
  5: change 1 with (Z.of_nat 1). 6: change 2 with (Z.of_nat 2).
  7: change 4 with (Z.of_nat 4). 8: change 8 with (Z.of_nat 8).
  1-4: rewrite read_signed_encode; do 2 f_equal;
       rewrite pow_256 by lia; apply wrap_signed_mod; [lia | exact Hv].
  all: rewrite read_unsigned_encode; do 2 f_equal;
       rewrite pow_256 by lia; apply Z.mod_small; exact Hv.
Qed.

Lemma integer_round_trip_witness :
  read_int int16 (mk_ifstream (le_encode 2 (-2) ++ [x07]) false false false)
  = Return (-2, mk_ifstream [x07] false false false).
Proof.
  apply (integer_round_trip int16 (-2) [x07] false false false).
  unfold in_type, in_signed. simpl. lia.
Defined.

Lemma list_byte_of_string_length (t : string) :
  length (list_byte_of_string t) = String.length t.
Proof.
  unfold list_byte_of_string. rewrite length_map.
  induction t as [| a t IH]; simpl; [| rewrite IH]; reflexivity.
Qed.

Lemma readString_prefixed (bs rest : list byte) (e f b : bool) :
  Z.of_nat (length bs) <= UINT32_MAX ->
  readString (mk_ifstream (le_encode 4 (Z.of_nat (length bs)) ++ bs ++ rest) e f b) =
  Return (string_of_list_byte bs, mk_ifstream rest e f b).
Proof.
  intros Hlen. unfold readString, readUInt32. unfold read_bind at 1.
  change 4 with (Z.of_nat 4). rewrite read_unsigned_encode.
  rewrite Z.mod_small by (unfold UINT32_MAX in Hlen; simpl; lia).
  unfold readChars, read_bind. rewrite read_bytes_app. reflexivity.
Qed.

Lemma text_of_length_length (n : nat) : String.length (text_of_length n) = n.
Proof.
  unfold text_of_length.
  rewrite <- list_byte_of_string_length, list_byte_of_string_of_list_byte.
  apply repeat_length.
Qed.

(** The boundary lengths 0, 1 and 65536: the prefix of the last one is
    [00 00 01 00]. *)
Example readString_boundary_lengths (n : nat) (rest : list byte) :
  n = 0%nat \/ n = 1%nat \/ n = Z.to_nat 65536 ->
  String.length (text_of_length n) = n /\
  readString (mk_ifstream (encode_string (text_of_length n) ++ rest)
                false false false) =
  Return (text_of_length n, mk_ifstream rest false false false).
Proof.
  intros Hn. split; [apply text_of_length_length |].
  unfold encode_string. rewrite text_of_length_length. unfold text_of_length.
  rewrite list_byte_of_string_of_list_byte, <- app_assoc.
  rewrite <- (repeat_length x61 n) at 1.
  apply readString_prefixed. rewrite repeat_length. unfold UINT32_MAX. lia.
Qed.

Example le_encode_65536 : le_encode 4 65536 = [x00; x00; x01; x00].
Proof. reflexivity. Qed.

(** C6. [readString] reads a 4-byte little-endian length [N] and then
    exactly [N] raw bytes: a text whose length fits the prefix, encoded
    as that length followed by its bytes, is decoded to the same text,
    and the bytes that follow the encoding are left in the stream. *)
Theorem readString_round_trip (t : string) (rest : list byte) (e f b : bool)
    (Hlen : Z.of_nat (String.length t) <= UINT32_MAX) :
  readString (mk_ifstream (encode_string t ++ rest) e f b) =
  Return (t, mk_ifstream rest e f b).
Proof.
  unfold encode_string. rewrite <- app_assoc.
  rewrite <- list_byte_of_string_length in *.
  rewrite readString_prefixed by exact Hlen.
  rewrite string_of_list_byte_of_string. reflexivity.
Qed.

Lemma readString_round_trip_witness :
  readString (mk_ifstream (encode_string "a" ++ [xff]) false false false)
  = Return ("a"%string, mk_ifstream [xff] false false false).
Proof.
  apply (readString_round_trip "a" [xff] false false false).
  vm_compute. discriminate.
Defined.

(** C9. Construction over a stream whose [!stream] holds throws, and a
    throwing constructor yields no reader; construction over any other
    stream returns a reader that is Open on the very stream it was given
    and on no other, so its read operations have that stream, valid at
    construction, to read from. *)
Theorem reader_construction (addr : positive) (stream : ifstream) :
  (fail stream = true ->
   SBinaryReader_ctor addr stream = Throw invalid_argument_exception) /\
  (fail stream = false ->
   exists r, SBinaryReader_ctor addr stream = Return r /\
             Open r addr /\ (forall a, Open r a -> a = addr)).
Proof.
  unfold SBinaryReader_ctor. split; intros H; rewrite H; [reflexivity |].
  eexists. split; [reflexivity |]. unfold Open. simpl.
  split; [reflexivity | congruence].
Qed.

Lemma reader_construction_witness :
  SBinaryReader_ctor 1 (mk_ifstream [x2a] false true false)
  = Throw invalid_argument_exception /\
  exists r, SBinaryReader_ctor 1 (mk_ifstream [x2a] true false false) = Return r /\
            Open r 1 /\ (forall a, Open r a -> a = 1%positive).
Proof.
  split.
  - apply (reader_construction 1 (mk_ifstream [x2a] false true false)).
    reflexivity.
  - apply (reader_construction 1 (mk_ifstream [x2a] true false false)).
    reflexivity.
Defined.

(** ** Paths of the tree *)

Lemma folder_at_lookup (h : heap) (a : positive) (f : SFolder) :
  folder_at h a = Some f ->
  exists n, h !! a = Some {| use_count := n; managed := obj_folder f |}.
Proof.
  unfold folder_at. destruct (h !! a) as [[n [g | g]] |]; try discriminate.
  intros [= ->]. eauto.
Qed.

Lemma live_folder_Some (h : heap) (a : positive) :
  live_folder h (Some a) = true -> exists pf, folder_at h a = Some pf.
Proof.
  unfold live_folder. intros H. apply bool_decide_eq_true in H.
  destruct H as [pf H]. eauto.
Qed.

(** C3. A folder constructed with no parent has its name as its path,
    untouched; a folder constructed under a parent has the join of the
    parent's path and its name.  With the join of the specification and
    either platform separator, a root "pkg", a folder "bin" under it and
    a file "a.exe" under that get the paths "pkg", "pkg/bin" and
    "pkg/bin/a.exe". *)
Theorem folder_path_construction :
  (forall combine h name0,
     exists f, SFolder_ctor combine h name0 None = Some f /\ path f = name0) /\
  (forall combine h name0 a pf,
     folder_at h a = Some pf ->
     exists f, SFolder_ctor combine h name0 (Some a) = Some f /\
               path f = combine (path pf) name0) /\
  (forall sep : ascii, sep = "/"%char \/ sep = "\"%char ->
     exists r h1 b h2 x h3,
       make_shared_SFolder (PathHelper.combine sep) ∅ "pkg" None = Some (r, h1) /\
       make_shared_SFolder (PathHelper.combine sep) h1 "bin" (Some r) = Some (b, h2) /\
       make_shared_SFile (PathHelper.combine sep) h2 "a.exe" (Some b) = Some (x, h3) /\
       node_path h3 r = Some "pkg"%string /\
       node_path h3 b = Some (String.append "pkg" (String sep "bin")) /\
       node_path h3 x =
         Some (String.append "pkg" (String sep (String.append "bin" (String sep "a.exe"))))).
Proof.
  split; [| split].
  - intros combine h name0. eexists. split; reflexivity.
  - intros combine h name0 a pf H. unfold SFolder_ctor. rewrite H.
    eexists. split; reflexivity.
  - intros sep [-> | ->]; do 6 eexists; repeat split; vm_compute; reflexivity.
Qed.

Lemma folder_path_construction_witness :
  exists f,
    SFolder_ctor (PathHelper.combine "/")
      {[ 1%positive := {| use_count := 1;
                          managed := obj_folder (mk_SFolder "pkg" "pkg" None [] []) |} ]}
      "bin" (Some 1%positive) = Some f /\
    path f = "pkg/bin"%string.
Proof.
  destruct folder_path_construction as (_ & H & _).
  apply (H (PathHelper.combine "/")
           {[ 1%positive := {| use_count := 1;
                managed := obj_folder (mk_SFolder "pkg" "pkg" None [] []) |} ]}
           "bin"%string 1%positive (mk_SFolder "pkg" "pkg" None [] [])).
  vm_compute. reflexivity.
Defined.

(** C10. Whatever the name and whatever the parent handle, null or
    pointing to a folder, the constructor returns a folder: it keeps the
    name and the parent handle as given and both mappings are empty.
    [std::make_shared] places it at an unused address, with the returned
    handle as its only owner. *)
Theorem folder_construction_total (combine : string -> string -> string)
    (h : heap) (name0 : string) (p : shared_ptr)
    (Hlive : live_folder h p = true) :
  exists f a h',
    SFolder_ctor combine h name0 p = Some f /\
    name f = name0 /\ parentFolder f = p /\
    files f = [] /\ subfolders f = [] /\
    make_shared_SFolder combine h name0 p = Some (a, h') /\
    h !! a = None /\
    h' !! a = Some {| use_count := 1; managed := obj_folder f |}.
Proof.
  assert (Hf : exists f, SFolder_ctor combine h name0 p = Some f /\
                 name f = name0 /\ parentFolder f = p /\
                 files f = [] /\ subfolders f = []).
  { destruct p as [a |].
    - destruct (live_folder_Some h a Hlive) as [pf Hpf].
      unfold SFolder_ctor. rewrite Hpf. eexists. repeat split.
    - eexists. repeat split. }
  destruct Hf as (f & Hc & Hn & Hp & Hfi & Hs).
  exists f, (fresh (dom h)), (<[fresh (dom h) :=
     {| use_count := 1; managed := obj_folder f |}]> (acquire p h)).
  repeat split; try assumption.
  - unfold make_shared_SFolder. rewrite Hc. reflexivity.
  - apply not_elem_of_dom. apply is_fresh.
  - apply lookup_insert_eq.
Qed.

Lemma folder_construction_total_witness :
  exists f a h',
    SFolder_ctor (PathHelper.combine "\")
      {[ 1%positive := {| use_count := 1;
                          managed := obj_folder (mk_SFolder "pkg" "pkg" None [] []) |} ]}
      "Data" (Some 1%positive) = Some f /\
    name f = "Data"%string /\ parentFolder f = Some 1%positive /\
    files f = [] /\ subfolders f = [] /\
    make_shared_SFolder (PathHelper.combine "\")
      {[ 1%positive := {| use_count := 1;
                          managed := obj_folder (mk_SFolder "pkg" "pkg" None [] []) |} ]}
      "Data" (Some 1%positive) = Some (a, h') /\
    ({[ 1%positive := {| use_count := 1;
                         managed := obj_folder (mk_SFolder "pkg" "pkg" None [] []) |} ]}
       : heap) !! a = None /\
    h' !! a = Some {| use_count := 1; managed := obj_folder f |}.
Proof.
  apply (folder_construction_total (PathHelper.combine "\")
           {[ 1%positive := {| use_count := 1;
                managed := obj_folder (mk_SFolder "pkg" "pkg" None [] []) |} ]}
           "Data" (Some 1%positive)).
  vm_compute. reflexivity.
Defined.

(** ** The ordered mapping *)

Section StdMapFacts.
Context {K V : Type} (lt : K -> K -> bool).

(** [lt] is a strict weak ordering, as [std::map] requires of its
    comparator. *)
Hypothesis lt_irrefl : forall a, lt a a = false.
Hypothesis lt_trans :
  forall a b c, lt a b = true -> lt b c = true -> lt a c = true.
Hypothesis lt_equiv :
  forall a b, StdMap.equivalent lt a b = true ->
              forall c, lt a c = lt b c /\ lt c a = lt c b.

Lemma find_insert_or_assign (k k' : K) (v : V) (m : list (K * V)) :
  StdMap.equivalent lt k k' = true ->
  StdMap.find lt k' (StdMap.insert_or_assign lt k v m) = Some v.
Proof.
  intros E. pose proof (lt_equiv k k' E) as C.
  induction m as [| [k1 v1] m IH]; simpl.
  - destruct (C k) as [C1 C2]. rewrite <- C1, <- C2, lt_irrefl. reflexivity.
  - destruct (C k1) as [C1 C2].
    destruct (lt k k1) eqn:L1; simpl.
    + destruct (C k) as [D1 D2]. rewrite <- D1, <- D2, lt_irrefl. reflexivity.
    + destruct (lt k1 k) eqn:L2; simpl; rewrite <- C1, <- C2.
      * exact IH.
      * reflexivity.
Qed.

Lemma find_insert_new (k k' : K) (v : V) (m : list (K * V)) :
  StdMap.equivalent lt k k' = true ->
  StdMap.find lt k m = None ->
  StdMap.find lt k' (StdMap.insert lt k v m) = Some v.
Proof.
  intros E. pose proof (lt_equiv k k' E) as C.
  induction m as [| [k1 v1] m IH]; simpl; intros N.
  - destruct (C k) as [C1 C2]. rewrite <- C1, <- C2, lt_irrefl. reflexivity.
  - destruct (C k1) as [C1 C2].
    destruct (lt k k1) eqn:L1; simpl.
    + destruct (C k) as [D1 D2]. rewrite <- D1, <- D2, lt_irrefl. reflexivity.
    + destruct (lt k1 k) eqn:L2; simpl; [| discriminate].
      rewrite <- C1, <- C2. apply IH, N.
Qed.

Lemma keys_insert_bound (a k : K) (v : V) (m : list (K * V)) :
  lt a k = true ->
  Forall (fun x => lt a x = true) (StdMap.keys m) ->
  Forall (fun x => lt a x = true) (StdMap.keys (StdMap.insert lt k v m)).
Proof.
  intros Hk. induction m as [| [k1 v1] m IH]; simpl; intros F.
  - repeat constructor. exact Hk.
  - inversion F as [| ? ? F1 F2]; subst.
    destruct (lt k k1); [| destruct (lt k1 k)]; simpl.
    + constructor; [exact Hk | exact F].
    + constructor; [exact F1 | apply IH, F2].
    + exact F.
Qed.

Lemma ordered_insert (k : K) (v : V) (m : list (K * V)) :
  StdMap.ordered lt m -> StdMap.ordered lt (StdMap.insert lt k v m).
Proof.
  unfold StdMap.ordered.
  induction m as [| [k1 v1] m IH]; simpl; intros S.
  - repeat constructor.
  - inversion S as [| ? ? S1 S2]; subst.
    destruct (lt k k1) eqn:L1; [| destruct (lt k1 k) eqn:L2]; simpl.
    + constructor; [exact S |]. constructor; [exact L1 |].
      eapply Forall_impl; [exact S2 |]. intros x Hx. eapply lt_trans; eauto.
    + constructor; [apply IH, S1 |]. apply keys_insert_bound; assumption.
    + exact S.
Qed.

Lemma keys_insert_or_assign (k : K) (v : V) (m : list (K * V)) :
  StdMap.keys (StdMap.insert_or_assign lt k v m) = StdMap.keys (StdMap.insert lt k v m).
Proof.
  induction m as [| [k1 v1] m IH]; simpl; [reflexivity |].
  destruct (lt k k1); [| destruct (lt k1 k)]; simpl; [| rewrite IH |]; reflexivity.
Qed.

Lemma ordered_insert_or_assign (k : K) (v : V) (m : list (K * V)) :
  StdMap.ordered lt m -> StdMap.ordered lt (StdMap.insert_or_assign lt k v m).
Proof.
  unfold StdMap.ordered. rewrite keys_insert_or_assign. apply ordered_insert.
Qed.

(** In an ordered mapping an earlier key is less than a later one:
    iteration follows the comparator and no two keys are equivalent. *)
Lemma ordered_lookup (m : list (K * V)) (i j : nat) (a b : K) :
  StdMap.ordered lt m -> (i < j)%nat ->
  StdMap.keys m !! i = Some a -> StdMap.keys m !! j = Some b ->
  lt a b = true.
Proof.
  unfold StdMap.ordered. generalize (StdMap.keys m) as l. clear m.
  intros l Hs. revert i j. induction Hs as [| x l Hs IH F]; intros i j Hij Hi Hj.
  - discriminate.
  - destruct j as [| j]; [lia |]. simpl in Hj.
    destruct i as [| i]; simpl in Hi.
    + injection Hi as ->. rewrite Forall_forall in F. apply F.
      eapply list_elem_of_lookup_2. exact Hj.
    + apply (IH i j); [lia | assumption | assumption].
Qed.
End StdMapFacts.

(** ** The case-insensitive comparator *)

Lemma ascii_compare_refl (c : ascii) : Ascii.compare c c = Eq.
Proof. unfold Ascii.compare. apply N.compare_refl. Qed.

Lemma string_compare_refl (s : string) : String.compare s s = Eq.
Proof.
  induction s as [| c s IH]; simpl; [reflexivity |].
  rewrite ascii_compare_refl. exact IH.
Qed.

Lemma string_compare_lt_trans (a b c : string) :
  String.compare a b = Lt -> String.compare b c = Lt -> String.compare a c = Lt.
Proof.
  revert b c. induction a as [| x a IH]; intros [| y b] [| z c]; simpl;
    try discriminate; try reflexivity.
  destruct (Ascii.compare x y) eqn:Exy; try discriminate;
    destruct (Ascii.compare y z) eqn:Eyz; try discriminate; intros Hab Hbc.
  - apply Ascii.compare_eq_iff in Exy, Eyz. subst.
    rewrite ascii_compare_refl. eapply IH; eassumption.
  - apply Ascii.compare_eq_iff in Exy. subst. rewrite Eyz. reflexivity.
  - apply Ascii.compare_eq_iff in Eyz. subst. rewrite Exy. reflexivity.
  - unfold Ascii.compare in *. rewrite N.compare_lt_iff in Exy, Eyz.
    assert (L : (N_of_ascii x < N_of_ascii z)%N) by lia.
    apply N.compare_lt_iff in L. rewrite L. reflexivity.
Qed.

Lemma PathICompareLT_irrefl (a : string) : PathHelper.PathICompareLT a a = false.
Proof.
  unfold PathHelper.PathICompareLT, String.ltb.
  rewrite string_compare_refl. reflexivity.
Qed.

Lemma PathICompareLT_trans (a b c : string) :
  PathHelper.PathICompareLT a b = true ->
  PathHelper.PathICompareLT b c = true ->
  PathHelper.PathICompareLT a c = true.
Proof.
  unfold PathHelper.PathICompareLT, String.ltb. intros Hab Hbc.
  destruct (String.compare (PathHelper.casefold a) (PathHelper.casefold b)) eqn:E1;
    try discriminate.
  destruct (String.compare (PathHelper.casefold b) (PathHelper.casefold c)) eqn:E2;
    try discriminate.
  rewrite (string_compare_lt_trans _ _ _ E1 E2). reflexivity.
Qed.

(** Two names are equivalent for the comparator exactly when they are
    equal up to letter case. *)
Lemma equivalent_casefold (a b : string) :
  StdMap.equivalent PathHelper.PathICompareLT a b = true <->
  PathHelper.casefold a = PathHelper.casefold b.
Proof.
  unfold StdMap.equivalent, PathHelper.PathICompareLT, String.ltb.
  rewrite (String.compare_antisym (PathHelper.casefold b)).
  split.
  - destruct (String.compare (PathHelper.casefold a) (PathHelper.casefold b)) eqn:E;
      try discriminate.
    intros _. apply String.compare_eq_iff, E.
  - intros ->. rewrite string_compare_refl. reflexivity.
Qed.

Lemma PathICompareLT_equiv (a b : string) :
  StdMap.equivalent PathHelper.PathICompareLT a b = true ->
  forall c, PathHelper.PathICompareLT a c = PathHelper.PathICompareLT b c /\
            PathHelper.PathICompareLT c a = PathHelper.PathICompareLT c b.
Proof.
  intros E c. apply equivalent_casefold in E.
  unfold PathHelper.PathICompareLT. rewrite E. split; reflexivity.
Qed.

(** C4. In a mapping keyed by [PathICompareLT], a child entered under a
    name, by assignment or by an insertion that takes place, is found
    under every name equal to it up to letter case; the empty mapping is
    ordered and both ways of entering a child keep it ordered; in an
    ordered mapping the names come in increasing case-insensitive order,
    so no two of them are equal up to letter case. *)
Theorem case_insensitive_mapping {V : Type} (m : list (string * V))
    (k k' : string) (v : V)
    (Hcase : PathHelper.casefold k = PathHelper.casefold k') :
  StdMap.find PathHelper.PathICompareLT k'
    (StdMap.insert_or_assign PathHelper.PathICompareLT k v m) = Some v /\
  (StdMap.find PathHelper.PathICompareLT k m = None ->
   StdMap.find PathHelper.PathICompareLT k'
     (StdMap.insert PathHelper.PathICompareLT k v m) = Some v) /\
  StdMap.ordered PathHelper.PathICompareLT (@nil (string * V)) /\
  (StdMap.ordered PathHelper.PathICompareLT m ->
   StdMap.ordered PathHelper.PathICompareLT
     (StdMap.insert PathHelper.PathICompareLT k v m) /\
   StdMap.ordered PathHelper.PathICompareLT
     (StdMap.insert_or_assign PathHelper.PathICompareLT k v m)) /\
  (StdMap.ordered PathHelper.PathICompareLT m ->
   forall i j a b, (i < j)%nat ->
     StdMap.keys m !! i = Some a -> StdMap.keys m !! j = Some b ->
     PathHelper.PathICompareLT a b = true /\
     PathHelper.casefold a <> PathHelper.casefold b).
Proof.
  apply equivalent_casefold in Hcase.
  split; [| split; [| split; [| split]]].
  - apply find_insert_or_assign;
      auto using PathICompareLT_irrefl, PathICompareLT_equiv.
  - apply find_insert_new;
      auto using PathICompareLT_irrefl, PathICompareLT_equiv.
  - constructor.
  - intros O. split.
    + apply ordered_insert; [apply PathICompareLT_trans | exact O].
    + apply ordered_insert_or_assign; [apply PathICompareLT_trans | exact O].
  - intros O i j a b Hij Hi Hj.
    assert (L : PathHelper.PathICompareLT a b = true)
      by (eapply ordered_lookup; eassumption).
    split; [exact L |]. intros E. apply equivalent_casefold in E.
    unfold StdMap.equivalent in E. rewrite L in E. discriminate.
Qed.

Lemma case_insensitive_mapping_witness :
  StdMap.find PathHelper.PathICompareLT "data"
    (StdMap.insert_or_assign PathHelper.PathICompareLT "Data" (Some 7%positive)
       [("bin"%string, Some 3%positive)]) = Some (Some 7%positive).
Proof.
  destruct (case_insensitive_mapping [("bin"%string, Some 3%positive)]
              "Data" "data" (Some 7%positive)) as [H _].
  - reflexivity.
  - exact H.
Defined.

(** ** Releasing shared pointers *)

Lemma release_all_mono (fuel fuel' : nat) (todo : list positive) (h r : heap) :
  release_all fuel todo h = Some r -> (fuel <= fuel')%nat ->
  release_all fuel' todo h = Some r.
Proof.
  revert fuel' todo h. induction fuel as [| fuel IH]; intros fuel' todo h.
  - destruct todo; simpl; [| discriminate]. intros E _.
    destruct fuel'; exact E.
  - destruct todo as [| a rest]; [intros E _; destruct fuel'; exact E |].
    intros E L. destruct fuel' as [| fuel']; [lia |].
    simpl in *. destruct (h !! a) as [c |].
    + destruct (use_count c <=? 1)%nat; apply IH; (exact E || lia).
    + apply IH; (exact E || lia).
Qed.

Lemma weight_step_comm (j1 j2 : positive) (z1 z2 : control_block) (y : nat) :
  S (length (members (managed z1)) + S (length (members (managed z2)) + y)) =
  S (length (members (managed z2)) + S (length (members (managed z1)) + y)).
Proof. lia. Qed.

Lemma weight_delete (h : heap) (a : positive) (c : control_block) :
  h !! a = Some c ->
  weight h = S (length (members (managed c)) + weight (delete a h)).
Proof.
  intros H. unfold weight.
  apply (map_fold_delete_L
           (fun _ c n => S (length (members (managed c)) + n)) O a c h);
    [| exact H].
  intros. apply weight_step_comm; assumption.
Qed.

Lemma weight_decr (h : heap) (a : positive) (c : control_block) :
  h !! a = Some c -> weight (<[a := decr c]> h) = weight h.
Proof.
  intros H. rewrite (weight_delete h a c H).
  rewrite <- (insert_delete_eq h a (decr c)). unfold weight at 1.
  rewrite map_fold_insert_L.
  - reflexivity.
  - intros. apply weight_step_comm; assumption.
  - apply lookup_delete_eq.
Qed.

(** Enough fuel: the pointers waiting plus the weight of the heap. *)
Lemma release_all_enough (fuel : nat) (todo : list positive) (h : heap) :
  (length todo + weight h <= fuel)%nat -> is_Some (release_all fuel todo h).
Proof.
  revert todo h. induction fuel as [| fuel IH]; intros todo h L.
  - destruct todo; [eexists; reflexivity | simpl in L; lia].
  - destruct todo as [| a rest]; [eexists; reflexivity |].
    simpl in *. destruct (h !! a) as [c |] eqn:E.
    + destruct (use_count c <=? 1)%nat; apply IH.
      * rewrite length_app. rewrite (weight_delete h a c E) in L. lia.
      * rewrite (weight_decr h a c E). lia.
    + apply IH. lia.
Qed.

(** [release] always returns. *)
Lemma release_total (p : shared_ptr) (h : heap) : is_Some (release p h).
Proof. unfold release. apply release_all_enough. lia. Qed.

(** [release] is what any run with enough fuel gives. *)
Lemma release_eq (fuel : nat) (p : shared_ptr) (h r : heap) :
  release_all fuel (option_list p) h = Some r -> release p h = Some r.
Proof.
  intros E. destruct (release_total p h) as [r' E']. rewrite E'.
  unfold release in E'.
  set (n := (length (option_list p) + weight h)%nat) in E'.
  apply (release_all_mono _ (max fuel n)) in E; [| lia].
  apply (release_all_mono _ (max fuel n)) in E'; [| lia].
  congruence.
Qed.

(** Dropping a pointer that is not the last owner only lowers the count. *)
Lemma release_shared (a : positive) (h : heap) (c : control_block) :
  h !! a = Some c -> (2 <= use_count c)%nat ->
  release (Some a) h = Some (<[a := decr c]> h).
Proof.
  intros E L. apply (release_eq 1). simpl. rewrite E.
  destruct (Nat.leb_spec (use_count c) 1); [lia | reflexivity].
Qed.

(** Dropping the last owner of an object without members frees it. *)
Lemma release_last (a : positive) (h : heap) (c : control_block) :
  h !! a = Some c -> (use_count c <= 1)%nat -> members (managed c) = [] ->
  release (Some a) h = Some (delete a h).
Proof.
  intros E L M. apply (release_eq 1). simpl. rewrite E, M.
  destruct (Nat.leb_spec (use_count c) 1); [reflexivity | lia].
Qed.


(** ** Ownership in the tree *)

Section Ownership.
Variable combine : string -> string -> string.
Variable PathICompareLT : string -> string -> bool.

Lemma fresh_twice (h : heap) (x : control_block) :
  let r := fresh (dom h) in
  let c := fresh (dom (<[r := x]> h)) in
  h !! r = None /\ h !! c = None /\ r <> c.
Proof.
  intros r c.
  assert (Hr : r ∉ dom h) by apply is_fresh.
  assert (Hc : c ∉ dom (<[r := x]> h)) by apply is_fresh.
  rewrite dom_insert_L in Hc.
  repeat split.
  - apply not_elem_of_dom, Hr.
  - apply not_elem_of_dom. set_solver.
  - set_solver.
Qed.

Lemma folder_at_Some (h : heap) (a : positive) (n : nat) (f : SFolder) :
  h !! a = Some {| use_count := n; managed := obj_folder f |} ->
  folder_at h a = Some f.
Proof. unfold folder_at. intros ->. reflexivity. Qed.

Lemma make_shared_SFolder_root (h : heap) (rn : string) :
  make_shared_SFolder combine h rn None =
  Some (fresh (dom h),
        <[fresh (dom h) :=
            {| use_count := 1;
               managed := obj_folder (mk_SFolder rn rn None [] []) |}]> h).
Proof. reflexivity. Qed.

Lemma make_shared_SFolder_child (h : heap) (cn : string) (r : positive)
    (pf : SFolder) :
  folder_at h r = Some pf ->
  make_shared_SFolder combine h cn (Some r) =
  Some (fresh (dom h),
        <[fresh (dom h) :=
            {| use_count := 1;
               managed := obj_folder
                            (mk_SFolder (combine (path pf) cn) cn (Some r) [] []) |}]>
          (alter incr r h)).
Proof.
  intros H. unfold make_shared_SFolder, SFolder_ctor. rewrite H. reflexivity.
Qed.

Lemma emplace_subfolder_new (h : heap) (a : positive) (n : nat) (f : SFolder)
    (key : string) (child : shared_ptr) :
  h !! a = Some {| use_count := n; managed := obj_folder f |} ->
  StdMap.find PathICompareLT key (subfolders f) = None ->
  emplace_subfolder PathICompareLT h a key child =
  Some (acquire child
          (<[a := {| use_count := n;
                     managed := obj_folder
                       (set_subfolders
                          (StdMap.insert PathICompareLT key child (subfolders f)) f) |}]>
             h)).
Proof. intros H N. unfold emplace_subfolder. rewrite H, N. reflexivity. Qed.

Lemma chain_and_drop_frees (h : heap) (rn cn : string) :
  exists r c h3,
    chain_and_drop combine h rn cn = Some (r, c, h3, h) /\
    h !! r = None /\ h !! c = None /\ r <> c /\
    h3 !! r = Some {| use_count := 1;
                      managed := obj_folder (mk_SFolder rn rn None [] []) |} /\
    h3 !! c = Some {| use_count := 1;
                      managed := obj_folder
                                   (mk_SFolder (combine rn cn) cn (Some r) [] []) |}.
Proof.
  set (root := {| use_count := 1; managed := obj_folder (mk_SFolder rn rn None [] []) |}).
  destruct (fresh_twice h root) as (Hr & Hc & Hrc).
  set (r := fresh (dom h)) in *.
  set (h1 := <[r := root]> h).
  set (c := fresh (dom h1)) in *.
  set (child := {| use_count := 1;
                   managed := obj_folder (mk_SFolder (combine rn cn) cn (Some r) [] []) |}).
  set (h2 := <[c := child]> (alter incr r h1)).
  set (h3 := <[r := decr (incr root)]> h2).
  assert (E1 : make_shared_SFolder combine h rn None = Some (r, h1))
    by apply make_shared_SFolder_root.
  assert (E2 : make_shared_SFolder combine h1 cn (Some r) = Some (c, h2)).
  { apply (make_shared_SFolder_child h1 cn r (mk_SFolder rn rn None [] [])).
    apply (folder_at_Some _ _ 1%nat). apply lookup_insert_eq. }
  assert (L2 : h2 !! r = Some (incr root)).
  { unfold h2. rewrite lookup_insert_ne by auto.
    rewrite lookup_alter_eq. unfold h1. rewrite lookup_insert_eq. reflexivity. }
  assert (E3 : release (Some r) h2 = Some h3).
  { apply release_shared; [exact L2 | simpl; lia]. }
  assert (L3c : h3 !! c = Some child).
  { unfold h3, h2. rewrite lookup_insert_ne by exact Hrc. apply lookup_insert_eq. }
  assert (L3r : h3 !! r = Some root) by apply lookup_insert_eq.
  assert (E4 : release (Some c) h3 = Some h).
  { apply (release_eq 2). simpl. rewrite L3c. simpl.
    rewrite lookup_delete_ne by auto. rewrite L3r. simpl. f_equal.
    apply map_eq. intros i.
    destruct (decide (i = r)) as [-> | Nr].
    { rewrite lookup_delete_eq. symmetry. exact Hr. }
    rewrite lookup_delete_ne by auto.
    destruct (decide (i = c)) as [-> | Nc].
    { rewrite lookup_delete_eq. symmetry. exact Hc. }
    rewrite lookup_delete_ne by auto.
    unfold h3, h2, h1. rewrite lookup_insert_ne by auto.
    rewrite lookup_insert_ne by auto. rewrite lookup_alter_ne by auto.
    apply lookup_insert_ne. auto. }
  exists r, c, h3. split.
  - unfold chain_and_drop. rewrite E1. simpl. rewrite E2. simpl.
    rewrite E3. simpl. rewrite E4. reflexivity.
  - repeat split; assumption.
Qed.

Lemma lone_folder_freed (h : heap) (rn : string) :
  exists r h1,
    make_shared_SFolder combine h rn None = Some (r, h1) /\
    h !! r = None /\ release (Some r) h1 = Some h.
Proof.
  assert (Hr : h !! fresh (dom h) = None) by apply not_elem_of_dom, is_fresh.
  eexists _, _. split; [apply make_shared_SFolder_root |]. split; [exact Hr |].
  erewrite release_last; [| apply lookup_insert_eq | simpl; lia | reflexivity].
  f_equal. apply delete_insert_id. exact Hr.
Qed.
End Ownership.

(** C2, as the code has it.  Both links of the tree are owning
    [std::shared_ptr]s.  The back-reference owns the parent: a root
    whose handle is dropped stays allocated as long as a folder
    constructed under it lives, and is freed together with that folder.
    A folder constructed under a root and entered in the root's
    [subfolders] forms an ownership cycle with it: once every handle is
    dropped both nodes are still allocated, each with the other as its
    only owner.  A folder that has neither parent nor children is freed
    when its only handle is dropped. *)
Theorem shared_ownership (combine : string -> string -> string)
    (lt : string -> string -> bool) (h : heap) (rn cn : string) :
  (exists r c h3,
     chain_and_drop combine h rn cn = Some (r, c, h3, h) /\
     h !! r = None /\ h !! c = None /\ r <> c /\
     h3 !! r = Some {| use_count := 1;
                       managed := obj_folder (mk_SFolder rn rn None [] []) |} /\
     h3 !! c = Some {| use_count := 1;
                       managed := obj_folder
                                    (mk_SFolder (combine rn cn) cn (Some r) [] []) |}) /\
  (exists r c h',
     build_and_drop combine lt h rn cn = Some (r, c, h') /\
     h !! r = None /\ h !! c = None /\ r <> c /\
     h' !! r = Some {| use_count := 1;
                       managed := obj_folder
                                    (mk_SFolder rn rn None [] [(cn, Some c)]) |} /\
     h' !! c = Some {| use_count := 1;
                       managed := obj_folder
                                    (mk_SFolder (combine rn cn) cn (Some r) [] []) |}) /\
  (exists r h1,
     make_shared_SFolder combine h rn None = Some (r, h1) /\
     h !! r = None /\ release (Some r) h1 = Some h).
Proof.
  split; [apply chain_and_drop_frees |].
  split; [| apply lone_folder_freed].
  set (root := {| use_count := 1; managed := obj_folder (mk_SFolder rn rn None [] []) |}).
  destruct (fresh_twice h root) as (Hr & Hc & Hrc).
  set (r := fresh (dom h)) in *.
  set (h1 := <[r := root]> h).
  set (c := fresh (dom h1)) in *.
  set (child := {| use_count := 1;
                   managed := obj_folder (mk_SFolder (combine rn cn) cn (Some r) [] []) |}).
  set (h2 := <[c := child]> (alter incr r h1)).
  set (root' := {| use_count := 2;
                   managed := obj_folder (mk_SFolder rn rn None [] [(cn, Some c)]) |}).
  set (h3 := alter incr c (<[r := root']> h2)).
  set (h4 := <[c := decr (incr child)]> h3).
  set (h5 := <[r := decr root']> h4).
  assert (E1 : make_shared_SFolder combine h rn None = Some (r, h1))
    by apply make_shared_SFolder_root.
  assert (E2 : make_shared_SFolder combine h1 cn (Some r) = Some (c, h2)).
  { apply (make_shared_SFolder_child combine h1 cn r (mk_SFolder rn rn None [] [])).
    apply (folder_at_Some _ _ 1%nat). apply lookup_insert_eq. }
  assert (L2 : h2 !! r = Some (incr root)).
  { unfold h2. rewrite lookup_insert_ne by auto.
    rewrite lookup_alter_eq. unfold h1. rewrite lookup_insert_eq. reflexivity. }
  assert (E3 : emplace_subfolder lt h2 r cn (Some c) = Some h3).
  { apply (emplace_subfolder_new lt h2 r 2 (mk_SFolder rn rn None [] []) cn (Some c));
      [exact L2 | reflexivity]. }
  assert (L3 : h3 !! c = Some (incr child)).
  { unfold h3. rewrite lookup_alter_eq, lookup_insert_ne by exact Hrc.
    unfold h2. rewrite lookup_insert_eq. reflexivity. }
  assert (E4 : release (Some c) h3 = Some h4).
  { apply release_shared; [exact L3 | simpl; lia]. }
  assert (L4 : h4 !! r = Some root').
  { unfold h4, h3. rewrite lookup_insert_ne by auto.
    rewrite lookup_alter_ne by auto. apply lookup_insert_eq. }
  assert (E5 : release (Some r) h4 = Some h5).
  { apply release_shared; [exact L4 | simpl; lia]. }
  exists r, c, h5. split.
  - unfold build_and_drop. rewrite E1. simpl. rewrite E2. simpl.
    rewrite E3. simpl. rewrite E4. simpl. rewrite E5. reflexivity.
  - repeat split; try assumption.
    + unfold h5. apply lookup_insert_eq.
    + unfold h5, h4. rewrite lookup_insert_ne by exact Hrc.
      apply lookup_insert_eq.
Qed.

(** C2 fails as stated: a root "pkg" and the folder "bin" constructed
    under it and entered in its [subfolders] are both still allocated,
    with use count 1, after the handles to both have been dropped. *)
Lemma owning_back_reference_leaks :
  build_and_drop (PathHelper.combine "/") PathHelper.PathICompareLT ∅ "pkg" "bin" =
  Some (1%positive, 2%positive,
        {[ 1%positive :=
             {| use_count := 1;
                managed := obj_folder
                  (mk_SFolder "pkg" "pkg" None [] [("bin"%string, Some 2%positive)]) |};
           2%positive :=
             {| use_count := 1;
                managed := obj_folder
                  (mk_SFolder "pkg/bin" "bin" (Some 1%positive) [] []) |} ]}).
Proof. vm_compute. reflexivity. Qed.

(** ** Paths of children *)



Lemma node_path_acquire (p : shared_ptr) (h : heap) (x : positive) :
  node_path (acquire p h) x = node_path h x.
Proof.
  destruct p as [a |]; [| reflexivity]. unfold node_path, acquire.
  destruct (decide (a = x)) as [-> | N].
  - rewrite lookup_alter_eq. destruct (h !! x); reflexivity.
  - rewrite lookup_alter_ne by exact N. reflexivity.
Qed.

Lemma node_path_make_shared (h : heap) (x : positive) (p : string)
    (q : shared_ptr) (c : control_block) :
  node_path h x = Some p ->
  node_path (<[fresh (dom h) := c]> (acquire q h)) x = Some p.
Proof.
  intros H. unfold node_path in *. rewrite lookup_insert_ne.
  - fold (node_path (acquire q h) x). rewrite node_path_acquire. exact H.
  - intros <-. assert (N : h !! fresh (dom h) = None)
      by apply not_elem_of_dom, is_fresh.
    rewrite N in H. discriminate.
Qed.



Section PathInvariant.
Variable combine : string -> string -> string.
Variable PathICompareLT : string -> string -> bool.


End PathInvariant.




(** * Further properties *)

(** ** Convert.h *)

Lemma wrap_signed_range (x : Z) : in_signed 32 (wrap_signed 32 x).
Proof.
  unfold in_signed, wrap_signed.
  change (2 ^ (32 - 1)) with 2147483648. change (2 ^ 32) with 4294967296.
  pose proof (Z.mod_pos_bound (x + 2147483648) 4294967296 eq_refl) as B. lia.
Qed.

Lemma wrap_unsigned_range (x : Z) : in_unsigned 32 (wrap_unsigned 32 x).
Proof.
  unfold in_unsigned, wrap_unsigned. apply Z.mod_pos_bound. reflexivity.
Qed.

(** X1. The guards are tight: [toInt32] throws on exactly the sizes
    that [static_cast<int32_t>] would change, and [toUInt32] on exactly
    the sizes that [static_cast<uint32_t>] would change. *)
Theorem guard_is_tight (bits v : Z) (Hv : is_size_t bits v) :
  (Convert.toInt32 v = Throw overflow_error_exception <-> wrap_signed 32 v <> v) /\
  (Convert.toUInt32 v = Throw overflow_error_exception <-> wrap_unsigned 32 v <> v).
Proof.
  destruct Hv as [H0 _]. unfold Convert.toInt32, Convert.toUInt32. split.
  - destruct (Z.gtb_spec v INT32_MAX) as [G | G]; split; intros H.
    + pose proof (wrap_signed_range v) as R. unfold in_signed, INT32_MAX in *.
      simpl in R. lia.
    + reflexivity.
    + discriminate.
    + exfalso. apply H. apply wrap_signed_small; [lia |].
      unfold in_signed, INT32_MAX in *. simpl. lia.
  - destruct (Z.gtb_spec v UINT32_MAX) as [G | G]; split; intros H.
    + pose proof (wrap_unsigned_range v) as R. unfold in_unsigned, UINT32_MAX in *.
      simpl in R. lia.
    + reflexivity.
    + discriminate.
    + exfalso. apply H. apply wrap_unsigned_small.
      unfold in_unsigned, UINT32_MAX in *. simpl. lia.
Qed.

Lemma guard_is_tight_witness :
  wrap_signed 32 2147483648 <> 2147483648 /\
  wrap_unsigned 32 4294967296 <> 4294967296.
Proof.
  split.
  - apply (guard_is_tight 64 2147483648).
    + unfold is_size_t, SIZE_MAX. simpl. lia.
    + reflexivity.
  - apply (guard_is_tight 64 4294967296).
    + unfold is_size_t, SIZE_MAX. simpl. lia.
    + reflexivity.
Defined.

(** X2. Whatever [toInt32] returns is the size it was given, is not
    negative and fits [int32_t]; whatever [toUInt32] returns is the size
    it was given and fits [uint32_t]. *)
Theorem returned_value_fits (bits v r : Z) (Hv : is_size_t bits v) :
  (Convert.toInt32 v = Return r -> r = v /\ 0 <= r <= INT32_MAX /\ in_signed 32 r) /\
  (Convert.toUInt32 v = Return r -> r = v /\ 0 <= r <= UINT32_MAX /\ in_unsigned 32 r).
Proof.
  destruct Hv as [H0 _]. unfold Convert.toInt32, Convert.toUInt32. split.
  - destruct (Z.gtb_spec v INT32_MAX) as [G | G]; [discriminate |].
    intros [= <-].
    assert (S : in_signed 32 v)
      by (unfold in_signed, INT32_MAX in *; simpl; lia).
    rewrite (wrap_signed_small 32 v) by (lia || exact S).
    repeat split; (lia || apply S).
  - destruct (Z.gtb_spec v UINT32_MAX) as [G | G]; [discriminate |].
    intros [= <-].
    assert (U : in_unsigned 32 v)
      by (unfold in_unsigned, UINT32_MAX in *; simpl; lia).
    rewrite (wrap_unsigned_small 32 v U).
    repeat split; (lia || apply U).
Qed.

Lemma returned_value_fits_witness :
  2147483647 = 2147483647 /\ 0 <= 2147483647 <= INT32_MAX /\
  in_signed 32 2147483647.
Proof.
  apply (returned_value_fits 32 2147483647 2147483647).
  - unfold is_size_t, SIZE_MAX. simpl. lia.
  - reflexivity.
Defined.

(** X3. The signed conversion is the stricter of the two: a size that
    [toInt32] converts is converted by [toUInt32] to the same value, and
    a size that [toUInt32] refuses is refused by [toInt32]. *)
Theorem signed_is_stricter (bits v : Z) (Hv : is_size_t bits v) :
  (forall r, Convert.toInt32 v = Return r -> Convert.toUInt32 v = Return r) /\
  (forall e, Convert.toUInt32 v = Throw e -> Convert.toInt32 v = Throw e).
Proof.
  destruct Hv as [H0 _]. unfold Convert.toInt32, Convert.toUInt32.
  split; intros x.
  - destruct (Z.gtb_spec v INT32_MAX) as [G | G]; [discriminate |].
    intros [= <-].
    destruct (Z.gtb_spec v UINT32_MAX) as [G' | G'];
      [unfold INT32_MAX, UINT32_MAX in *; lia |].
    rewrite wrap_signed_small, wrap_unsigned_small; try reflexivity;
      unfold in_signed, in_unsigned, INT32_MAX in *; simpl; lia.
  - destruct (Z.gtb_spec v UINT32_MAX) as [G' | G']; [| discriminate].
    intros [= <-].
    destruct (Z.gtb_spec v INT32_MAX) as [G | G];
      [reflexivity | unfold INT32_MAX, UINT32_MAX in *; lia].
Qed.

Lemma signed_is_stricter_witness :
  Convert.toUInt32 77 = Return 77 /\
  Convert.toInt32 4294967296 = Throw overflow_error_exception.
Proof.
  split.
  - apply (signed_is_stricter 64 77).
    + unfold is_size_t, SIZE_MAX. simpl. lia.
    + reflexivity.
  - apply (signed_is_stricter 64 4294967296).
    + unfold is_size_t, SIZE_MAX. simpl. lia.
    + reflexivity.
Defined.

(** X4. Where [size_t] has at most 32 bits the guard of [toUInt32] is
    dead: it returns every size unchanged.  [toInt32] still refuses the
    upper half of such a [size_t]. *)
Theorem narrow_size_t (bits v : Z) (Hbits : bits <= 32) (Hv : is_size_t bits v) :
  Convert.toUInt32 v = Return v /\
  (Convert.toInt32 v = Throw overflow_error_exception <-> 2 ^ 31 <= v).
Proof.
  destruct Hv as [H0 H1]. unfold SIZE_MAX in H1.
  assert (P : 2 ^ bits <= 2 ^ 32).
  { destruct (Z.le_gt_cases 0 bits) as [N | N].
    - apply Z.pow_le_mono_r; lia.
    - rewrite Z.pow_neg_r by lia. lia. }
  change (2 ^ 32) with 4294967296 in P.
  unfold Convert.toInt32, Convert.toUInt32. split.
  - destruct (Z.gtb_spec v UINT32_MAX) as [G | G];
      [unfold UINT32_MAX in G; lia |].
    rewrite wrap_unsigned_small; [reflexivity |].
    unfold in_unsigned. simpl. lia.
  - change (2 ^ 31) with 2147483648.
    destruct (Z.gtb_spec v INT32_MAX) as [G | G]; unfold INT32_MAX in G;
      split; intros H; try reflexivity; try discriminate; lia.
Qed.

Lemma narrow_size_t_witness :
  Convert.toUInt32 4294967295 = Return 4294967295 /\
  (Convert.toInt32 4294967295 = Throw overflow_error_exception <->
   2 ^ 31 <= 4294967295).
Proof.
  apply (narrow_size_t 32 4294967295).
  - lia.
  - unfold is_size_t, SIZE_MAX. simpl. lia.
Defined.

(** ** SFolder.h: what construction does to the heap *)

(** X5. Constructing a folder touches nothing but the new node and the
    use count of its parent: the new node takes an unused address, the
    parent gains exactly one owner and is otherwise the object it was
    (the constructor does not enter the new folder in the parent's
    [subfolders]), and every other node is left as it is. *)
Theorem construction_frame (combine : string -> string -> string)
    (h h' : heap) (name0 : string) (p : shared_ptr) (a : positive)
    (Hmk : make_shared_SFolder combine h name0 p = Some (a, h')) :
  h !! a = None /\
  (forall q, p = Some q ->
     exists c, h !! q = Some c /\
               h' !! q = Some {| use_count := S (use_count c);
                                 managed := managed c |}) /\
  (forall x, x <> a -> p <> Some x -> h' !! x = h !! x).
Proof.
  unfold make_shared_SFolder in Hmk.
  destruct (SFolder_ctor combine h name0 p) as [f |] eqn:Hc; [| discriminate].
  injection Hmk as <- <-.
  assert (Hfresh : h !! fresh (dom h) = None)
    by apply not_elem_of_dom, is_fresh.
  split; [exact Hfresh |]. split.
  - intros q ->. unfold SFolder_ctor in Hc.
    destruct (folder_at h q) as [pf |] eqn:Hq; [| discriminate].
    destruct (folder_at_lookup h q pf Hq) as [n L].
    eexists. split; [exact L |].
    rewrite lookup_insert_ne by (intros E; rewrite E, L in Hfresh; discriminate).
    simpl. rewrite lookup_alter_eq, L. reflexivity.
  - intros x Hx Hp. rewrite lookup_insert_ne by auto.
    destruct p as [q |]; [| reflexivity]. simpl.
    apply lookup_alter_ne. congruence.
Qed.

Lemma construction_frame_witness :
  ({[ 1%positive := {| use_count := 1;
            managed := obj_folder (mk_SFolder "pkg" "pkg" None [] []) |};
        2%positive := {| use_count := 1;
            managed := obj_folder (mk_SFolder "tmp" "tmp" None [] []) |} ]} : heap) !! 3%positive = None /\
  (exists c,
     ({[ 1%positive := {| use_count := 1;
            managed := obj_folder (mk_SFolder "pkg" "pkg" None [] []) |};
        2%positive := {| use_count := 1;
            managed := obj_folder (mk_SFolder "tmp" "tmp" None [] []) |} ]} : heap) !! 1%positive = Some c /\
     ({[ 1%positive := {| use_count := 2;
            managed := obj_folder (mk_SFolder "pkg" "pkg" None [] []) |};
        2%positive := {| use_count := 1;
            managed := obj_folder (mk_SFolder "tmp" "tmp" None [] []) |};
        3%positive := {| use_count := 1;
            managed := obj_folder
              (mk_SFolder "pkg/bin" "bin" (Some 1%positive) [] []) |} ]} : heap) !! 1%positive
     = Some {| use_count := S (use_count c); managed := managed c |}) /\
  ({[ 1%positive := {| use_count := 2;
            managed := obj_folder (mk_SFolder "pkg" "pkg" None [] []) |};
        2%positive := {| use_count := 1;
            managed := obj_folder (mk_SFolder "tmp" "tmp" None [] []) |};
        3%positive := {| use_count := 1;
            managed := obj_folder
              (mk_SFolder "pkg/bin" "bin" (Some 1%positive) [] []) |} ]} : heap) !! 2%positive
  = ({[ 1%positive := {| use_count := 1;
            managed := obj_folder (mk_SFolder "pkg" "pkg" None [] []) |};
        2%positive := {| use_count := 1;
            managed := obj_folder (mk_SFolder "tmp" "tmp" None [] []) |} ]} : heap) !! 2%positive.
Proof.
  destruct (construction_frame (PathHelper.combine "/")
              {[ 1%positive := {| use_count := 1;
            managed := obj_folder (mk_SFolder "pkg" "pkg" None [] []) |};
        2%positive := {| use_count := 1;
            managed := obj_folder (mk_SFolder "tmp" "tmp" None [] []) |} ]}
              {[ 1%positive := {| use_count := 2;
            managed := obj_folder (mk_SFolder "pkg" "pkg" None [] []) |};
        2%positive := {| use_count := 1;
            managed := obj_folder (mk_SFolder "tmp" "tmp" None [] []) |};
        3%positive := {| use_count := 1;
            managed := obj_folder
              (mk_SFolder "pkg/bin" "bin" (Some 1%positive) [] []) |} ]}
              "bin" (Some 1%positive) 3%positive) as (A & B & C).
  - vm_compute. reflexivity.
  - split; [exact A |]. split.
    + apply B. reflexivity.
    + apply C; discriminate.
Defined.

(** ** SFolder.h: nested folders *)

Section ChainFacts.
Variable combine : string -> string -> string.

Lemma make_shared_SFolder_live (h : heap) (name0 : string) (p : shared_ptr) :
  live_folder h p = true ->
  exists f,
    SFolder_ctor combine h name0 p = Some f /\
    parentFolder f = p /\ files f = [] /\ subfolders f = [] /\
    make_shared_SFolder combine h name0 p =
    Some (fresh (dom h),
          <[fresh (dom h) := {| use_count := 1; managed := obj_folder f |}]>
            (acquire p h)).
Proof.
  intros Hlive.
  assert (Hf : exists f, SFolder_ctor combine h name0 p = Some f /\
                 parentFolder f = p /\ files f = [] /\ subfolders f = []).
  { destruct p as [q |].
    - destruct (live_folder_Some h q Hlive) as [pf Hpf].
      unfold SFolder_ctor. rewrite Hpf. eexists. repeat split.
    - eexists. repeat split. }
  destruct Hf as (f & Hc & Hp & Hfi & Hs). exists f.
  repeat split; try assumption.
  unfold make_shared_SFolder. rewrite Hc. reflexivity.
Qed.

Lemma make_chain_keeps_path (names : list string) :
  forall (h : heap) (p : shared_ptr) (l : list positive) (h' : heap)
         (x : positive) (s : string),
    make_chain combine h p names = Some (l, h') ->
    node_path h x = Some s -> node_path h' x = Some s.
Proof.
  induction names as [| n names IH]; intros h p l h' x s E Hx.
  - injection E as <- <-. exact Hx.
  - cbn [make_chain] in E. unfold make_shared_SFolder in E.
    destruct (SFolder_ctor combine h n p) as [f |]; [| discriminate].
    simpl in E.
    destruct (make_chain combine _ _ names) as [[l' h2] |] eqn:E'; [| discriminate].
    injection E as <- <-. eapply IH; [exact E' |].
    apply node_path_make_shared. exact Hx.
Qed.

Lemma chain_paths_last (names : list string) :
  forall (above : option string) (n : string),
    last (chain_paths combine above (n :: names)) =
    Some (fold_left combine names
            (match above with None => n | Some q => combine q n end)).
Proof.
  induction names as [| m names IH]; intros above n; [reflexivity |].
  change (chain_paths combine above (n :: m :: names)) with
    (match above with None => n | Some q => combine q n end
       :: chain_paths combine
            (Some (match above with None => n | Some q => combine q n end))
            (m :: names)).
  rewrite last_cons, IH. reflexivity.
Qed.

Lemma make_chain_paths (names : list string) :
  forall (h : heap) (p : shared_ptr),
    live_folder h p = true ->
    exists l h',
      make_chain combine h p names = Some (l, h') /\
      Forall2 (fun a s => node_path h' a = Some s) l
        (chain_paths combine
           (match p with None => None | Some q => path <$> folder_at h q end)
           names).
Proof.
  induction names as [| n names IH]; intros h p Hlive.
  - exists [], h. split; [reflexivity | constructor].
  - destruct (make_shared_SFolder_live h n p Hlive) as (f & Hc & Hp & Hfi & Hs & Hmk).
    set (a := fresh (dom h)) in *.
    set (h1 := <[a := {| use_count := 1; managed := obj_folder f |}]> (acquire p h)) in *.
    assert (La : h1 !! a = Some {| use_count := 1; managed := obj_folder f |})
      by apply lookup_insert_eq.
    assert (Fa : folder_at h1 a = Some f) by (unfold folder_at; rewrite La; reflexivity).
    assert (Hlive1 : live_folder h1 (Some a) = true).
    { unfold live_folder. apply bool_decide_eq_true. rewrite Fa. eauto. }
    destruct (IH h1 (Some a) Hlive1) as (l & h2 & E & F).
    exists (a :: l), h2. split.
    + cbn [make_chain]. rewrite Hmk. simpl. rewrite E. reflexivity.
    + rewrite Fa in F. simpl in F.
      assert (Pf : path f =
                   match match p with
                         | None => None
                         | Some q => path <$> folder_at h q
                         end with
                   | None => n
                   | Some q => combine q n
                   end).
      { unfold SFolder_ctor in Hc. destruct p as [q |].
        - destruct (folder_at h q) as [pf |]; [| discriminate].
          injection Hc as <-. reflexivity.
        - injection Hc as <-. reflexivity. }
      cbn [chain_paths]. rewrite <- Pf. constructor; [| exact F].
      eapply make_chain_keeps_path; [exact E |].
      unfold node_path. rewrite La. reflexivity.
Qed.
End ChainFacts.

(** X6. Folders constructed one under the other, from a root down, get
    the paths that joining the names from the left gives: the folder at
    depth [i] has the join of the first [i + 1] names, and the innermost
    one has [fold_left combine] of all of them; every path is still in
    place when the whole chain has been built. *)
Theorem nested_folder_paths (combine : string -> string -> string) (h : heap)
    (n : string) (names : list string) :
  exists l h' leaf,
    make_chain combine h None (n :: names) = Some (l, h') /\
    Forall2 (fun a s => node_path h' a = Some s) l
      (chain_paths combine None (n :: names)) /\
    last l = Some leaf /\
    node_path h' leaf = Some (fold_left combine names n).
Proof.
  destruct (make_chain_paths combine (n :: names) h None eq_refl)
    as (l & h' & E & F).
  pose proof (chain_paths_last combine names None n) as L.
  assert (Hlen : length l = length (chain_paths combine None (n :: names)))
    by (eapply Forall2_length; exact F).
  destruct (last l) as [leaf |] eqn:Hl.
  - exists l, h', leaf. repeat split; try assumption.
    rewrite last_lookup in Hl. rewrite last_lookup in L.
    rewrite <- Hlen in L.
    destruct (Forall2_lookup_l _ _ _ _ _ F Hl) as (s & Hs & Hp).
    rewrite Hs in L. injection L as <-. exact Hp.
  - apply last_None in Hl. subst l. simpl in Hlen. discriminate.
Qed.

(** ** SFolder.h: what dropping a handle does *)

Lemma release_all_shrinks (fuel : nat) (todo : list positive) (h h' : heap)
    (a : positive) :
  release_all fuel todo h = Some h' ->
  h' !! a = None \/
  exists c c', h !! a = Some c /\ h' !! a = Some c' /\
               managed c' = managed c /\ (use_count c' <= use_count c)%nat.
Proof.
  revert todo h. induction fuel as [| fuel IH]; intros todo h.
  - destruct todo; simpl; [| discriminate]. intros [= ->].
    destruct (h' !! a) as [c |]; [right; exists c, c; auto | left; reflexivity].
  - destruct todo as [| b rest]; simpl.
    + intros [= ->].
      destruct (h' !! a) as [c |]; [right; exists c, c; auto | left; reflexivity].
    + destruct (h !! b) as [cb |] eqn:Eb; [| apply IH].
      destruct (use_count cb <=? 1)%nat; intros E; apply IH in E;
        destruct E as [E | (c & c' & E1 & E2 & E3 & E4)]; auto; right.
      * destruct (decide (b = a)) as [-> | N].
        -- rewrite lookup_delete_eq in E1. discriminate.
        -- rewrite lookup_delete_ne in E1 by exact N. exists c, c'. auto.
      * destruct (decide (b = a)) as [-> | N].
        -- rewrite lookup_insert_eq in E1. injection E1 as <-.
           exists cb, c'. repeat split; try assumption.
           simpl in E4. lia.
        -- rewrite lookup_insert_ne in E1 by exact N. exists c, c'. auto.
Qed.

(** X9. Dropping a handle allocates nothing and rewrites nothing: an
    address that was free stays free, and a node that is still there
    afterwards is the object it was (name, path, parent and mappings),
    with a use count that has not grown. *)
Theorem release_only_lowers (p : shared_ptr) (h h' : heap) (a : positive)
    (Hrel : release p h = Some h') :
  (h !! a = None -> h' !! a = None) /\
  (forall c', h' !! a = Some c' ->
     exists c, h !! a = Some c /\ managed c' = managed c /\
               (use_count c' <= use_count c)%nat).
Proof.
  unfold release in Hrel.
  destruct (release_all_shrinks _ _ _ _ a Hrel)
    as [N | (c & c' & E1 & E2 & E3 & E4)]; split.
  - intros _. exact N.
  - intros c' E. rewrite N in E. discriminate.
  - intros E. rewrite E in E1. discriminate.
  - intros c0 E. rewrite E2 in E. injection E as <-. exists c. auto.
Qed.

Lemma release_only_lowers_witness :
  exists c,
    ({[ 1%positive := {| use_count := 2;
          managed := obj_folder (mk_SFolder "pkg" "pkg" None [] []) |} ]} : heap)
      !! 1%positive = Some c /\
    managed {| use_count := 1;
               managed := obj_folder (mk_SFolder "pkg" "pkg" None [] []) |}
    = managed c /\
    (use_count {| use_count := 1;
                  managed := obj_folder (mk_SFolder "pkg" "pkg" None [] []) |}
     <= use_count c)%nat.
Proof.
  destruct (release_only_lowers (Some 1%positive)
           {[ 1%positive := {| use_count := 2;
                managed := obj_folder (mk_SFolder "pkg" "pkg" None [] []) |} ]}
           {[ 1%positive := {| use_count := 1;
                managed := obj_folder (mk_SFolder "pkg" "pkg" None [] []) |} ]}
           1%positive) as [_ H].
  - vm_compute. reflexivity.
  - apply H. vm_compute. reflexivity.
Defined.

Lemma isolated_spec (h : heap) (group : list positive) :
  isolated h group = true <->
  (forall x c, h !! x = Some c ->
     x ∈ group \/ Forall (fun a => a ∉ group) (members (managed c))).
Proof. unfold isolated. rewrite bool_decide_eq_true. reflexivity. Qed.

Lemma release_all_isolated (fuel : nat) :
  forall (todo : list positive) (h h' : heap) (group : list positive),
    isolated h group = true ->
    Forall (fun a => a ∉ group) todo ->
    release_all fuel todo h = Some h' ->
    (forall a, a ∈ group -> h' !! a = h !! a) /\ isolated h' group = true.
Proof.
  induction fuel as [| fuel IH]; intros todo h h' group Hiso Hout E.
  - destruct todo; simpl in E; [| discriminate]. injection E as <-. auto.
  - destruct todo as [| b rest]; simpl in E; [injection E as <-; auto |].
    inversion Hout as [| ? ? Hb Hrest]; subst.
    destruct (h !! b) as [cb |] eqn:Eb; [| eapply IH; eassumption].
    pose proof (proj1 (isolated_spec h group) Hiso) as Hall.
    destruct (Hall b cb Eb) as [Hin | Hmem]; [contradiction |].
    destruct (use_count cb <=? 1)%nat.
    + assert (Hiso1 : isolated (delete b h) group = true).
      { apply isolated_spec. intros x c Hx.
        destruct (decide (b = x)) as [-> | N].
        - rewrite lookup_delete_eq in Hx. discriminate.
        - rewrite lookup_delete_ne in Hx by exact N. eauto. }
      destruct (IH _ _ _ group Hiso1 (Forall_app_2 _ _ _ Hmem Hrest) E) as [K1 K2].
      split; [| exact K2]. intros a Ha. rewrite (K1 a Ha).
      apply lookup_delete_ne. intros ->. contradiction.
    + assert (Hiso1 : isolated (<[b := decr cb]> h) group = true).
      { apply isolated_spec. intros x c Hx.
        destruct (decide (b = x)) as [-> | N].
        - rewrite lookup_insert_eq in Hx. injection Hx as <-. right. exact Hmem.
        - rewrite lookup_insert_ne in Hx by exact N. eauto. }
      destruct (IH _ _ _ group Hiso1 Hrest E) as [K1 K2].
      split; [| exact K2]. intros a Ha. rewrite (K1 a Ha).
      apply lookup_insert_ne. intros ->. contradiction.
Qed.

(** X7. A leak is for good: when the nodes of a group are referenced by
    no node outside the group, dropping a handle to a node outside it,
    with everything that this destroys in turn, leaves every node of the
    group exactly as it was, and the group is as isolated as before.  So
    a root and a child that own each other are freed by no later drop of
    any other handle. *)
Theorem isolated_group_survives (p : shared_ptr) (h h' : heap)
    (group : list positive)
    (Hiso : isolated h group = true)
    (Hout : forall a, p = Some a -> a ∉ group)
    (Hrel : release p h = Some h') :
  (forall a, a ∈ group -> h' !! a = h !! a) /\ isolated h' group = true.
Proof.
  unfold release in Hrel.
  eapply release_all_isolated; [exact Hiso | | exact Hrel].
  destruct p as [a |]; simpl; [| constructor].
  constructor; [apply Hout; reflexivity | constructor].
Qed.

Lemma isolated_group_survives_witness :
  ({[ 1%positive :=
        {| use_count := 1;
           managed := obj_folder
             (mk_SFolder "pkg" "pkg" None [] [("bin"%string, Some 2%positive)]) |};
      2%positive :=
        {| use_count := 1;
           managed := obj_folder
             (mk_SFolder "pkg/bin" "bin" (Some 1%positive) [] []) |} ]} : heap)
    !! 2%positive
  =
  ({[ 1%positive :=
        {| use_count := 1;
           managed := obj_folder
             (mk_SFolder "pkg" "pkg" None [] [("bin"%string, Some 2%positive)]) |};
      2%positive :=
        {| use_count := 1;
           managed := obj_folder
             (mk_SFolder "pkg/bin" "bin" (Some 1%positive) [] []) |};
      3%positive :=
        {| use_count := 1;
           managed := obj_folder (mk_SFolder "tmp" "tmp" None [] []) |} ]} : heap)
    !! 2%positive.
Proof.
  destruct (isolated_group_survives (Some 3%positive)
    {[ 1%positive :=
         {| use_count := 1;
            managed := obj_folder
              (mk_SFolder "pkg" "pkg" None [] [("bin"%string, Some 2%positive)]) |};
       2%positive :=
         {| use_count := 1;
            managed := obj_folder
              (mk_SFolder "pkg/bin" "bin" (Some 1%positive) [] []) |};
       3%positive :=
         {| use_count := 1;
            managed := obj_folder (mk_SFolder "tmp" "tmp" None [] []) |} ]}
    {[ 1%positive :=
         {| use_count := 1;
            managed := obj_folder
              (mk_SFolder "pkg" "pkg" None [] [("bin"%string, Some 2%positive)]) |};
       2%positive :=
         {| use_count := 1;
            managed := obj_folder
              (mk_SFolder "pkg/bin" "bin" (Some 1%positive) [] []) |} ]}
    [1%positive; 2%positive]) as [H _].
  - vm_compute. reflexivity.
  - intros a [= <-]. rewrite !elem_of_cons, elem_of_nil.
    intros [E | [E | []]]; discriminate.
  - vm_compute. reflexivity.
  - apply H. rewrite !elem_of_cons. auto.
Defined.

Lemma drop_all_app (xs ys : list positive) (h : heap) :
  drop_all (xs ++ ys) h = drop_all xs h ≫= drop_all ys.
Proof.
  revert h. induction xs as [| x xs IH]; intros h; simpl; [reflexivity |].
  destruct (release (Some x) h) as [h1 |]; simpl; [apply IH | reflexivity].
Qed.

(** A folder that has just been made, with no children yet, goes away
    with its only handle and gives the owner it took back to its parent. *)
Lemma release_new_folder (h : heap) (a : positive) (f : SFolder) (p : shared_ptr) :
  h !! a = None ->
  parentFolder f = p -> files f = [] -> subfolders f = [] ->
  (forall q, p = Some q -> exists c, h !! q = Some c /\ (1 <= use_count c)%nat) ->
  release (Some a)
    (<[a := {| use_count := 1; managed := obj_folder f |}]> (acquire p h))
  = Some h.
Proof.
  intros Ha Hp Hfi Hs Hown. destruct p as [q |].
  - destruct (Hown q eq_refl) as (c & Hq & Hc).
    assert (Nqa : q <> a) by (intros ->; rewrite Ha in Hq; discriminate).
    apply (release_eq 2). simpl. rewrite lookup_insert_eq. simpl.
    rewrite Hp, Hfi, Hs. simpl.
    rewrite lookup_delete_ne by auto. rewrite lookup_insert_ne by auto.
    rewrite lookup_alter_eq, Hq. simpl.
    destruct (Nat.leb_spec (use_count c) 0) as [L | L]; [lia |].
    f_equal. apply map_eq. intros i.
    destruct (decide (i = q)) as [-> | Nq].
    + rewrite lookup_insert_eq, Hq. destruct c. reflexivity.
    + rewrite lookup_insert_ne by auto.
      destruct (decide (i = a)) as [-> | Na].
      * rewrite lookup_delete_eq. symmetry. exact Ha.
      * rewrite lookup_delete_ne by auto. rewrite lookup_insert_ne by auto.
        apply lookup_alter_ne. auto.
  - simpl. erewrite release_last.
    + f_equal. apply delete_insert_id. exact Ha.
    + apply lookup_insert_eq.
    + simpl. lia.
    + simpl. rewrite Hp, Hfi, Hs. reflexivity.
Qed.

(** X8. Ownership runs upwards and, without an entry in a mapping, it
    does not leak: folders nested to any depth through [parentFolder]
    alone, under a root or under a folder that has an owner, are all
    freed, and the heap is what it was before the first of them was
    constructed, once their handles are dropped from the innermost
    folder outwards. *)
Theorem nested_folders_released (combine : string -> string -> string)
    (names : list string) :
  forall (h : heap) (p : shared_ptr),
    (forall q, p = Some q ->
       exists c pf, h !! q = Some c /\ managed c = obj_folder pf /\
                    (1 <= use_count c)%nat) ->
    exists l h',
      make_chain combine h p names = Some (l, h') /\
      length l = length names /\
      drop_all (rev l) h' = Some h.
Proof.
  induction names as [| n names IH]; intros h p Hown.
  - exists [], h. repeat split.
  - assert (Hlive : live_folder h p = true).
    { destruct p as [q |]; [| reflexivity].
      destruct (Hown q eq_refl) as (c & pf & Hq & Hm & _).
      unfold live_folder. apply bool_decide_eq_true. exists pf.
      unfold folder_at. rewrite Hq. destruct c as [k o]. simpl in Hm.
      subst o. reflexivity. }
    destruct (make_shared_SFolder_live combine h n p Hlive)
      as (f & Hc & Hp & Hfi & Hs & Hmk).
    assert (Ha : h !! fresh (dom h) = None) by apply not_elem_of_dom, is_fresh.
    set (a := fresh (dom h)) in *.
    set (h1 := <[a := {| use_count := 1; managed := obj_folder f |}]> (acquire p h)) in *.
    destruct (IH h1 (Some a)) as (l & h2 & E & Hlen & Hdrop).
    { intros q [= <-]. exists {| use_count := 1; managed := obj_folder f |}, f.
      repeat split; [apply lookup_insert_eq | simpl; lia]. }
    exists (a :: l), h2. repeat split.
    + cbn [make_chain]. rewrite Hmk. simpl. rewrite E. reflexivity.
    + simpl. rewrite Hlen. reflexivity.
    + simpl rev. rewrite drop_all_app, Hdrop. simpl.
      unfold h1. rewrite release_new_folder; auto.
      intros q Hq. destruct (Hown q Hq) as (c & pf & H1 & _ & H3). eauto.
Qed.

Lemma nested_folders_released_witness :
  exists l h',
    make_chain (PathHelper.combine "/") ∅ None ["pkg"; "bin"; "x64"]%string
    = Some (l, h') /\
    length l = 3%nat /\
    drop_all (rev l) h' = Some ∅.
Proof.
  apply (nested_folders_released (PathHelper.combine "/")
           ["pkg"; "bin"; "x64"]%string ∅ None).
  intros q E. discriminate E.
Defined.

(** ** SFolder.h: the mappings [files] and [subfolders] *)

Section StdMapMore.
Context {K V : Type} (lt : K -> K -> bool).
Hypothesis Hlt : strict_weak_order lt.

Lemma swo_asym (a b : K) : lt a b = true -> lt b a = false.
Proof.
  destruct Hlt as (Hi & Ht & _). intros H.
  destruct (lt b a) eqn:E; [| reflexivity].
  rewrite <- (Hi a). symmetry. eapply Ht; eassumption.
Qed.

Lemma find_spec_ordered (k : K) (v : V) (m : list (K * V)) :
  StdMap.ordered lt m ->
  (StdMap.find lt k m = Some v <->
   exists k', (k', v) ∈ m /\ StdMap.equivalent lt k k' = true).
Proof.
  destruct Hlt as (Hi & Ht & He). unfold StdMap.ordered.
  induction m as [| [k1 v1] m IH]; simpl; intros O.
  - split; [discriminate |]. intros (k' & H & _). inversion H.
  - inversion O as [| ? ? O1 O2]; subst. specialize (IH O1).
    destruct (lt k k1) eqn:L1; [| destruct (lt k1 k) eqn:L2].
    + split; [discriminate |]. intros (k' & H & E). exfalso.
      apply elem_of_cons in H. destruct H as [[= -> ->] | H].
      * unfold StdMap.equivalent in E. rewrite L1 in E. discriminate.
      * rewrite Forall_forall in O2.
        assert (L : lt k1 k' = true).
        { apply O2. apply list_elem_of_fmap. exists (k', v). auto. }
        destruct (He k k' E k1) as [C1 C2].
        rewrite (swo_asym _ _ L) in C1. congruence.
    + rewrite IH. split; intros (k' & H & E); exists k'.
      * split; [apply elem_of_cons; auto | exact E].
      * split; [| exact E]. apply elem_of_cons in H.
        destruct H as [[= -> ->] | H]; [| exact H].
        unfold StdMap.equivalent in E. rewrite L2 in E.
        rewrite andb_false_r in E. discriminate.
    + split.
      * intros [= ->]. exists k1. split; [apply elem_of_cons; auto |].
        unfold StdMap.equivalent. rewrite L1, L2. reflexivity.
      * intros (k' & H & E). apply elem_of_cons in H.
        destruct H as [[= -> ->] | H]; [reflexivity | exfalso].
        rewrite Forall_forall in O2.
        assert (L : lt k1 k' = true).
        { apply O2. apply list_elem_of_fmap. exists (k', v). auto. }
        destruct (He k k' E k1) as [C1 C2]. congruence.
Qed.

End StdMapMore.

(** X10. Lookup finds exactly the entries that are there: in an ordered
    mapping [find] returns a node for a name if and only if the mapping
    holds that node under an equivalent name; for a name with no
    equivalent in the mapping it returns nothing. *)
Theorem lookup_finds_what_is_there {K V : Type} (lt : K -> K -> bool)
    (k : K) (m : list (K * V))
    (Hlt : strict_weak_order lt) (Hm : StdMap.ordered lt m) :
  (forall v, StdMap.find lt k m = Some v <->
             exists k', (k', v) ∈ m /\ StdMap.equivalent lt k k' = true) /\
  (StdMap.find lt k m = None <->
   forall k' v, (k', v) ∈ m -> StdMap.equivalent lt k k' = false).
Proof.
  split; [intros v; apply find_spec_ordered; assumption |].
  split.
  - intros N k' v H. destruct (StdMap.equivalent lt k k') eqn:E; [| reflexivity].
    assert (F : StdMap.find lt k m = Some v)
      by (apply find_spec_ordered; eauto).
    congruence.
  - intros H. destruct (StdMap.find lt k m) as [v |] eqn:F; [| reflexivity].
    apply find_spec_ordered in F; [| assumption | assumption].
    destruct F as (k' & Hin & E). rewrite (H k' v Hin) in E. discriminate.
Qed.

(** X11. Entering a child leaves every other name alone: after [insert]
    or [insert_or_assign] under a name, lookup of any name that is not
    equivalent to it gives what it gave before. *)
Theorem other_names_untouched {K V : Type} (lt : K -> K -> bool)
    (k k' : K) (v : V) (m : list (K * V))
    (Hlt : strict_weak_order lt)
    (Hne : StdMap.equivalent lt k k' = false) :
  StdMap.find lt k' (StdMap.insert lt k v m) = StdMap.find lt k' m /\
  StdMap.find lt k' (StdMap.insert_or_assign lt k v m) = StdMap.find lt k' m.
Proof.
  destruct Hlt as (Hi & Ht & He). pose proof Hne as N.
  assert (Hor : lt k' k = true \/ (lt k' k = false /\ lt k k' = true)).
  { unfold StdMap.equivalent in N.
    destruct (lt k' k); [left; reflexivity | right].
    destruct (lt k k'); [auto | discriminate]. }
  induction m as [| [k1 v1] m [IH1 IH2]]; simpl.
  - destruct Hor as [L | [L L']]; rewrite L; [auto |]. rewrite L'. auto.
  - destruct (lt k k1) eqn:L1; [| destruct (lt k1 k) eqn:L2]; simpl.
    + destruct Hor as [L | [L L']]; rewrite L.
      * rewrite (Ht k' k k1 L L1). auto.
      * rewrite L'. auto.
    + rewrite IH1, IH2. auto.
    + split; [reflexivity |].
      destruct (lt k' k1) eqn:M1; [reflexivity |].
      destruct (lt k1 k') eqn:M2; [reflexivity | exfalso].
      assert (E : StdMap.equivalent lt k k1 = true)
        by (unfold StdMap.equivalent; rewrite L1, L2; reflexivity).
      destruct (He k k1 E k') as [C1 C2].
      unfold StdMap.equivalent in N. rewrite C1, C2, M1, M2 in N. discriminate.
Qed.

(** X12. A name that is taken stays as it was entered: when the mapping
    already has a node under an equivalent name, [insert] changes
    nothing, so the earlier node stays; [insert_or_assign] puts the new
    node in its place but keeps the names of the mapping, the spelling
    of the earlier entry included, and the number of entries. *)
Theorem taken_name_is_kept {K V : Type} (lt : K -> K -> bool)
    (k : K) (v w : V) (m : list (K * V))
    (Htaken : StdMap.find lt k m = Some w) :
  StdMap.insert lt k v m = m /\
  StdMap.keys (StdMap.insert_or_assign lt k v m) = StdMap.keys m /\
  length (StdMap.insert_or_assign lt k v m) = length m /\
  StdMap.find lt k (StdMap.insert_or_assign lt k v m) = Some v.
Proof.
  induction m as [| [k1 v1] m IH]; simpl in *; [discriminate |].
  destruct (lt k k1) eqn:L1; [discriminate |].
  destruct (lt k1 k) eqn:L2.
  - destruct (IH Htaken) as (I1 & I2 & I3 & I4).
    simpl. rewrite I1, I2, I3, L1, L2. auto.
  - simpl. rewrite L1, L2. auto.
Qed.

Lemma PathICompareLT_swo : strict_weak_order PathHelper.PathICompareLT.
Proof.
  split; [exact PathICompareLT_irrefl |].
  split; [exact PathICompareLT_trans | exact PathICompareLT_equiv].
Qed.

Lemma lookup_finds_what_is_there_witness :
  StdMap.find PathHelper.PathICompareLT "DATA"
    [("bin"%string, 3%nat); ("Data"%string, 7%nat)] = Some 7%nat <->
  exists k', (k', 7%nat) ∈ [("bin"%string, 3%nat); ("Data"%string, 7%nat)] /\
             StdMap.equivalent PathHelper.PathICompareLT "DATA" k' = true.
Proof.
  apply (lookup_finds_what_is_there PathHelper.PathICompareLT "DATA"%string
           [("bin"%string, 3%nat); ("Data"%string, 7%nat)]).
  - exact PathICompareLT_swo.
  - repeat constructor.
Defined.

Lemma other_names_untouched_witness :
  StdMap.find PathHelper.PathICompareLT "bin"
    (StdMap.insert PathHelper.PathICompareLT "Data" 7%nat [("bin"%string, 3%nat)])
  = StdMap.find PathHelper.PathICompareLT "bin" [("bin"%string, 3%nat)] /\
  StdMap.find PathHelper.PathICompareLT "bin"
    (StdMap.insert_or_assign PathHelper.PathICompareLT "Data" 7%nat
       [("bin"%string, 3%nat)])
  = StdMap.find PathHelper.PathICompareLT "bin" [("bin"%string, 3%nat)].
Proof.
  apply (other_names_untouched PathHelper.PathICompareLT "Data"%string "bin"%string
           7%nat [("bin"%string, 3%nat)]).
  - exact PathICompareLT_swo.
  - reflexivity.
Defined.

Lemma taken_name_is_kept_witness :
  StdMap.insert PathHelper.PathICompareLT "data" 9%nat
    [("bin"%string, 3%nat); ("Data"%string, 7%nat)]
  = [("bin"%string, 3%nat); ("Data"%string, 7%nat)] /\
  StdMap.keys (StdMap.insert_or_assign PathHelper.PathICompareLT "data" 9%nat
                 [("bin"%string, 3%nat); ("Data"%string, 7%nat)])
  = StdMap.keys [("bin"%string, 3%nat); ("Data"%string, 7%nat)] /\
  length (StdMap.insert_or_assign PathHelper.PathICompareLT "data" 9%nat
            [("bin"%string, 3%nat); ("Data"%string, 7%nat)])
  = length [("bin"%string, 3%nat); ("Data"%string, 7%nat)] /\
  StdMap.find PathHelper.PathICompareLT "data"
    (StdMap.insert_or_assign PathHelper.PathICompareLT "data" 9%nat
       [("bin"%string, 3%nat); ("Data"%string, 7%nat)]) = Some 9%nat.
Proof.
  apply (taken_name_is_kept PathHelper.PathICompareLT "data"%string 9%nat 7%nat
           [("bin"%string, 3%nat); ("Data"%string, 7%nat)]).
  reflexivity.
Defined.
